(** * A shallow embedding of the es-interpreter object model, host bridge and
      evaluator skeleton (src/interpreter.ts, src/object.ts).

    The interpreter is a JavaScript program that manipulates host objects.  The
    embedding keeps the shape of the source: an explicit heap of
    [InterpreterObject]s addressed by location, host property maps with their
    attribute flags, a state/exception monad for the three ways a method can
    end (return, [throw STEP_ERROR], a real host exception), and the source's
    own method names. *)

From Stdlib Require Import ZArith String Ascii List Bool Lia.
From Stdlib Require Import DecimalString DecimalN.
From stdpp Require Import base tactics option numbers list strings.
Import ListNotations.
Local Open Scope string_scope.
Local Open Scope Z_scope.

Set Default Proof Using "Type".

(** ** Host numbers and values *)

(** A host Number.  Integral values are exact; a non-integral finite double is
    the dyadic rational [m / 2^e] (with [m] odd).  Negative zero is not
    distinguished from zero: none of the embedded code can observe it. *)
Inductive number : Type :=
| NaN
| Infinity (negative : bool)
| NInt (z : Z)
| NFrac (m : Z) (e : positive).

(** [Interpreter.Value]: a primitive or a reference to an [InterpreterObject]. *)
Abbreviation loc := nat (only parsing).

Inductive val : Type :=
| VUndef
| VNull
| VBool (b : bool)
| VNum (n : number)
| VStr (s : string)
| VObj (l : loc).

#[global] Instance number_eq_dec : EqDecision number.
Proof. solve_decision. Defined.
#[global] Instance val_eq_dec : EqDecision val.
Proof. solve_decision. Defined.

(** [x === y] on numbers: NaN is different from itself. *)
Definition number_strict_eq (x y : number) : bool :=
  match x, y with
  | NaN, _ | _, NaN => false
  | _, _ => bool_decide (x = y)
  end.

(** ToBoolean (ES5 9.2). *)
Definition truthy (v : val) : bool :=
  match v with
  | VUndef | VNull => false
  | VBool b => b
  | VNum NaN => false
  | VNum (NInt z) => negb (z =? 0)
  | VNum _ => true
  | VStr s => negb (String.eqb s "")
  | VObj _ => true
  end.

(** [typeof v] for interpreter values.  Every [InterpreterObject] is a plain
    host object, so functions of the interpreted world also answer "object". *)
Definition typeof (v : val) : string :=
  match v with
  | VUndef => "undefined"
  | VNull => "object"
  | VBool _ => "boolean"
  | VNum _ => "number"
  | VStr _ => "string"
  | VObj _ => "object"
  end.

(** [x >>> 0] on a number (ToUint32, ES5 9.6): truncate toward zero, then
    reduce modulo 2^32. *)
Definition two32 : Z := 4294967296.

Definition ToUint32 (x : number) : Z :=
  match x with
  | NaN | Infinity _ => 0
  | NInt z => z mod two32
  | NFrac m e => (Z.quot m (2 ^ Z.pos e)) mod two32
  end.

(** [String(n)] for a non-negative integer: canonical decimal digits. *)
Definition String_of_N (n : N) : string :=
  NilEmpty.string_of_uint (N.to_uint n).

(** ToNumber on a string made of decimal digits only (leading zeros allowed);
    the empty string converts to 0 (ES5 9.3.1). *)
Definition digits_to_N (s : string) : option N :=
  match s with
  | EmptyString => Some 0%N
  | _ => option_map N.of_uint (NilEmpty.uint_of_string s)
  end.

(** ** Host objects used as property maps *)

(** A property of a host object ([Object.getOwnPropertyDescriptor]): a data
    property, or an accessor property whose [get]/[set] are the source's
    [PLACEHOLDER_GETTER]/[PLACEHOLDER_SETTER] ([true]) or undefined ([false]). *)
Inductive SlotKind : Type :=
| Data (value : val) (writable : bool)
| Accessor (get set : bool).

Record Slot : Type := mkSlot {
  kind : SlotKind;
  enumerable : bool;
  configurable : bool }.

#[global] Instance SlotKind_eq_dec : EqDecision SlotKind.
Proof. solve_decision. Defined.
#[global] Instance Slot_eq_dec : EqDecision Slot.
Proof. solve_decision. Defined.

(** A host object created by [Object.create(null)]: own properties only, listed
    in the order in which [for (k in o)] produces them (creation order). *)
Definition alist (A : Type) : Type := list (string * A).

Fixpoint aget {A} (name : string) (m : alist A) : option A :=
  match m with
  | [] => None
  | (k, x) :: m' => if String.eqb k name then Some x else aget name m'
  end.

Fixpoint aput {A} (name : string) (x : A) (m : alist A) : alist A :=
  match m with
  | [] => [(name, x)]
  | (k, y) :: m' =>
      if String.eqb k name then (k, x) :: m' else (k, y) :: aput name x m'
  end.

Definition aremove {A} (name : string) (m : alist A) : alist A :=
  List.filter (fun kv => negb (String.eqb (fst kv) name)) m.

(** [name in m] *)
Definition ain {A} (name : string) (m : alist A) : bool :=
  match aget name m with Some _ => true | None => false end.

Definition PropMap : Type := alist Slot.

(** What a host [throw] carries: an error object built by one of the host's
    error constructors with its message, or a bare string. *)
Inductive HostExn : Type :=
| Thrown (ctor : string) (message : val)
| ThrownString (s : string).

(** Outcome of a computation that only reads: a value, a host exception, or
    no outcome at all because a loop of the source never ends. *)
Inductive hostres (A : Type) : Type :=
| HOk (a : A)
| HThrow (e : HostExn)
| HDiverge.
Arguments HOk {A} a.
Arguments HThrow {A} e.
Arguments HDiverge {A}.

Definition hbind {A B} (r : hostres A) (k : A -> hostres B) : hostres B :=
  match r with
  | HOk a => k a
  | HThrow e => HThrow e
  | HDiverge => HDiverge
  end.

(** The property created by a plain assignment to a missing key. *)
Definition plain_slot (v : val) : Slot :=
  {| kind := Data v true; enumerable := true; configurable := true |}.

(** [m[name]] *)
Definition host_get (m : PropMap) (name : string) : hostres val :=
  match aget name m with
  | None => HOk VUndef
  | Some sl =>
      match kind sl with
      | Data v _ => HOk v
      | Accessor true _ => HThrow (Thrown "Error" (VStr "Placeholder getter"))
      | Accessor false _ => HOk VUndef
      end
  end.

(** [m[name] = v] in strict-mode code (the source is an ES module). *)
Definition host_set (m : PropMap) (name : string) (v : val) : hostres PropMap :=
  match aget name m with
  | None => HOk (aput name (plain_slot v) m)
  | Some sl =>
      match kind sl with
      | Data _ true =>
          HOk (aput name {| kind := Data v true; enumerable := enumerable sl;
                            configurable := configurable sl |} m)
      | Data _ false =>
          HThrow (Thrown "TypeError" (VStr "Cannot assign to read only property"))
      | Accessor _ true => HThrow (Thrown "Error" (VStr "Placeholder setter"))
      | Accessor _ false =>
          HThrow (Thrown "TypeError" (VStr "Cannot set property which has only a getter"))
      end
  end.

(** [delete m[name]] in strict-mode code. *)
Definition host_delete (m : PropMap) (name : string) : hostres PropMap :=
  match aget name m with
  | None => HOk m
  | Some sl =>
      if configurable sl then HOk (aremove name m)
      else HThrow (Thrown "TypeError" (VStr "Cannot delete property"))
  end.

(** The [descriptor] object that [setProperty] hands to
    [Object.defineProperty]: [get]/[set] are only ever the placeholders. *)
Record HostDescriptor : Type := mkHostDescriptor {
  hd_get : bool;
  hd_set : bool;
  hd_configurable : option val;
  hd_enumerable : option val;
  hd_writable : option val;
  hd_value : option val }.

(** ['key' in o] for an optional field. *)
Definition present {A} (x : option A) : bool :=
  match x with Some _ => true | None => false end.

Definition redefine_error : HostExn :=
  Thrown "TypeError" (VStr "Cannot redefine property").

(** [Object.defineProperty(m, name, d)] on an extensible object: ES5 8.10.5
    and 8.12.9 (steps 5 and 6 are subsumed by the later steps). *)
Definition host_defineProperty (m : PropMap) (name : string) (d : HostDescriptor)
  : hostres PropMap :=
  let accessor_desc := hd_get d || hd_set d in
  let data_desc := present (hd_value d) || present (hd_writable d) in
  if accessor_desc && data_desc
  then HThrow (Thrown "TypeError" (VStr "Invalid property descriptor"))
  else
    let conf := option_map truthy (hd_configurable d) in
    let enum := option_map truthy (hd_enumerable d) in
    let writ := option_map truthy (hd_writable d) in
    match aget name m with
    | None =>
        let k := if accessor_desc then Accessor (hd_get d) (hd_set d)
                 else Data (default VUndef (hd_value d)) (default false writ) in
        HOk (aput name {| kind := k; enumerable := default false enum;
                          configurable := default false conf |} m)
    | Some cur =>
        if negb (configurable cur) &&
           (bool_decide (conf = Some true) ||
            bool_decide (enum = Some (negb (enumerable cur))))
        then HThrow redefine_error
        else
          let enum' := default (enumerable cur) enum in
          let conf' := default (configurable cur) conf in
          let done k := HOk (aput name {| kind := k; enumerable := enum';
                                          configurable := conf' |} m) in
          if negb accessor_desc && negb data_desc then done (kind cur)
          else
            match kind cur with
            | Data cv cw =>
                if data_desc then
                  if negb (configurable cur) && negb cw &&
                     (bool_decide (writ = Some true) ||
                      match hd_value d with
                      | Some v => negb (bool_decide (v = cv))
                      | None => false
                      end)
                  then HThrow redefine_error
                  else done (Data (default cv (hd_value d)) (default cw writ))
                else if negb (configurable cur) then HThrow redefine_error
                else done (Accessor (hd_get d) (hd_set d))
            | Accessor cg cs =>
                if accessor_desc then
                  if negb (configurable cur) &&
                     ((hd_get d && negb cg) || (hd_set d && negb cs))
                  then HThrow redefine_error
                  else done (Accessor (cg || hd_get d) (cs || hd_set d))
                else if negb (configurable cur) then HThrow redefine_error
                else done (Data (default VUndef (hd_value d)) (default false writ))
            end
    end.

(** ** The interpreted heap *)

(** An AST node, with the fields the embedded methods read. *)
#[local] Set Warnings "-register-all".
Inductive Node : Type := mkNode {
  ntype : string;
  nend : option Z;
  noperator : option string;
  nbody : list Node;
  ncallee : option Node;
  narguments : list Node }.

(** [class InterpreterObject] (src/object.ts).  Fields the constructor does
    not assign are undefined until written: [None] / [false].  The class
    declares [data] as [get data() { return null; }] and nothing else, so an
    instance has no [data] slot: see [InterpreterObject_data] and
    [InterpreterObject_set_data]. *)
Record InterpreterObject : Type := mkObject {
  proto : option loc;
  class : option string;
  properties : PropMap;
  getter : alist val;
  setter : alist val;
  illegalConstructor : bool;
  preventExtensions : bool;
  eval : bool;
  nativeFunc : option nat;
  asyncFunc : option nat;
  func_node : option Node;
  func_parentScope : option nat }.

(** [o.class === c] *)
Definition class_is (o : InterpreterObject) (c : string) : bool :=
  match class o with
  | Some c' => String.eqb c' c
  | None => false
  end.

(** [new InterpreterObject(proto)] *)
Definition new_InterpreterObject (p : option loc) : InterpreterObject :=
  {| proto := p; class := None; properties := []; getter := []; setter := [];
     illegalConstructor := false; preventExtensions := false; eval := false;
     nativeFunc := None; asyncFunc := None; func_node := None;
     func_parentScope := None |}.

(** ** Host conversions *)

(** The conversions of the host language that the source relies on and that
    depend on the engine's number printer and parser, or on the (virtual)
    [toString]/[valueOf] of an object. *)
Class Host : Type := {
  (** ToNumber on a string that is not a plain run of decimal digits. *)
  StrNumericLiteral : string -> number;
  (** Number-to-string on a number that is not a small integer. *)
  FloatToString : number -> string;
  (** [String(obj)] and [Number(obj)] for an [InterpreterObject]. *)
  ObjectToString : list InterpreterObject -> loc -> string;
  ObjectToNumber : list InterpreterObject -> loc -> number }.

Section HostConversions.
Context `{Host}.

Definition StringToNumber (s : string) : number :=
  match digits_to_N s with
  | Some n => NInt (Z.of_N n)
  | None => StrNumericLiteral s
  end.

Definition NumberToString (n : number) : string :=
  match n with
  | NaN => "NaN"
  | Infinity false => "Infinity"
  | Infinity true => "-Infinity"
  | NInt z =>
      if Z.abs z <? 10 ^ 21
      then (if z <? 0 then "-" else "") ++ String_of_N (Z.abs_N z)
      else FloatToString n
  | NFrac _ _ => FloatToString n
  end.

(** [Number(v)] *)
Definition ToNumber (h : list InterpreterObject) (v : val) : number :=
  match v with
  | VUndef => NaN
  | VNull => NInt 0
  | VBool b => NInt (if b then 1 else 0)
  | VNum n => n
  | VStr s => StringToNumber s
  | VObj l => ObjectToNumber h l
  end.

(** [String(v)] *)
Definition ToString (h : list InterpreterObject) (v : val) : string :=
  match v with
  | VUndef => "undefined"
  | VNull => "null"
  | VBool true => "true"
  | VBool false => "false"
  | VNum n => NumberToString n
  | VStr s => s
  | VObj l => ObjectToString h l
  end.

Definition isNaN (n : number) : bool :=
  match n with NaN => true | _ => false end.

(** Is a value a legal integer for an array length? *)
Definition legalArrayLength (h : list InterpreterObject) (x : val) : number :=
  let n := ToUint32 (ToNumber h x) in
  (* Array length must be between 0 and 2^32-1 (inclusive). *)
  if number_strict_eq (NInt n) (ToNumber h x) then NInt n else NaN.

(** Is a value a legal integer for an array index?  Every caller passes a
    property name that is already a string. *)
Definition legalArrayIndex (x : string) : number :=
  let n := ToUint32 (StringToNumber x) in
  (* Array index cannot be 2^32-1, otherwise length would be 2^32. *)
  if String.eqb (String_of_N (Z.to_N n)) x && negb (n =? 4294967295)
  then NInt n else NaN.

End HostConversions.

(** [a < b] and [a <= b] on numbers. *)
Definition number_cmp (a b : number) : option comparison :=
  let frac (x : number) : option (Z * Z) :=
    match x with
    | NInt z => Some (z, 1)
    | NFrac m e => Some (m, 2 ^ Z.pos e)
    | _ => None
    end in
  match a, b with
  | NaN, _ | _, NaN => None
  | Infinity n1, Infinity n2 =>
      Some (if n1 then (if n2 then Eq else Lt) else (if n2 then Gt else Eq))
  | Infinity n1, _ => Some (if n1 then Lt else Gt)
  | _, Infinity n2 => Some (if n2 then Gt else Lt)
  | _, _ =>
      match frac a, frac b with
      | Some (x, dx), Some (y, dy) => Some (x * dy ?= y * dx)
      | _, _ => None
      end
  end.

Definition number_lt (a b : number) : bool :=
  match number_cmp a b with Some Lt => true | _ => false end.

Definition number_le (a b : number) : bool :=
  match number_cmp a b with Some Lt | Some Eq => true | _ => false end.

(** [Math.max(a, b)] *)
Definition Math_max (a b : number) : number :=
  match number_cmp a b with
  | None => NaN
  | Some Lt => b
  | Some _ => a
  end.

(** [n + 1] for the result of [legalArrayIndex]. *)
Definition number_succ (n : number) : number :=
  match n with
  | NInt z => NInt (z + 1)
  | _ => n
  end.

(** [x === y] on interpreter values. *)
Definition strict_eq (x y : val) : bool :=
  match x, y with
  | VNum a, VNum b => number_strict_eq a b
  | _, _ => bool_decide (x = y)
  end.

(** ** Descriptors, scopes, frames and the interpreter *)

(** The [opt_descriptor] argument of [setProperty]: a host object that may
    hold any of six keys. *)
Record Descriptor : Type := mkDescriptor {
  d_get : option val;
  d_set : option val;
  d_configurable : option val;
  d_enumerable : option val;
  d_writable : option val;
  d_value : option val }.

Definition flags_descriptor (c e w : bool) : Descriptor :=
  {| d_get := None; d_set := None; d_configurable := Some (VBool c);
     d_enumerable := Some (VBool e); d_writable := Some (VBool w);
     d_value := None |}.

Definition READONLY_DESCRIPTOR := flags_descriptor true true false.
Definition NONENUMERABLE_DESCRIPTOR := flags_descriptor true false true.
Definition READONLY_NONENUMERABLE_DESCRIPTOR := flags_descriptor true false false.
Definition NONCONFIGURABLE_READONLY_NONENUMERABLE_DESCRIPTOR :=
  flags_descriptor false false false.
Definition VARIABLE_DESCRIPTOR := flags_descriptor false true true.

(** The [value] argument of [setProperty]: a value, or the
    [VALUE_IN_DESCRIPTOR] marker. *)
Inductive setval : Type :=
| SV (v : val)
| VALUE_IN_DESCRIPTOR.

Inductive Completion : Type := NORMAL | BREAK | CONTINUE | RETURN | THROW.

#[global] Instance Completion_eq_dec : EqDecision Completion.
Proof. solve_decision. Defined.

(** [class Scope] *)
Record Scope : Type := mkScope {
  parentScope : option nat;
  strict : bool;
  object : loc }.

(** What a frame slot holds: a value, the two-element reference array left by
    a sub-expression evaluated with [components] set ([ref_base = None]
    stands for [SCOPE_REFERENCE]), or the [SCOPE_REFERENCE] object itself. *)
Inductive FrameValue : Type :=
| FV (v : val)
| FRef (ref_base : option val) (ref_name : val)
| FScopeReference.

Record CompletionValue : Type := mkCV {
  cv_type : Completion;
  cv_value : val;
  cv_label : option string }.

(** [state.doneCallee_] is undefined, 1, 2, or (on synthesized accessor
    calls) [true]. *)
Inductive CalleeProgress : Type := DC_undefined | DC_1 | DC_2 | DC_true.

(** [class State]: the AST node, the scope and the scratch fields. *)
Record State : Type := mkState {
  node : Node;
  scope : option nat;
  value : FrameValue;
  done : bool;
  labels : option (list string);
  isLoop : bool;
  isSwitch : bool;
  cv : option CompletionValue;
  components : bool;
  doneCallee_ : CalleeProgress;
  func_ : FrameValue;
  funcThis_ : FrameValue;
  directEval_ : bool;
  doneArgs_ : bool;
  arguments_ : list FrameValue;
  n_ : nat;
  isConstructor : bool;
  doneExec_ : bool }.

(** [new State(node, scope)] *)
Definition new_State (nd : Node) (sc : option nat) : State :=
  {| node := nd; scope := sc; value := FV VUndef; done := false; labels := None;
     isLoop := false; isSwitch := false; cv := None; components := false;
     doneCallee_ := DC_undefined; func_ := FV VUndef; funcThis_ := FV VUndef;
     directEval_ := false; doneArgs_ := false; arguments_ := []; n_ := 0%nat;
     isConstructor := false; doneExec_ := false |}.


Definition with_value (x : FrameValue) (st : State) : State :=
  mkState (node st) (scope st) x (done st) (labels st) (isLoop st)
    (isSwitch st) (cv st) (components st) (doneCallee_ st) (func_ st)
    (funcThis_ st) (directEval_ st) (doneArgs_ st) (arguments_ st) (n_ st)
    (isConstructor st) (doneExec_ st).

Definition with_done (x : bool) (st : State) : State :=
  mkState (node st) (scope st) (value st) x (labels st) (isLoop st)
    (isSwitch st) (cv st) (components st) (doneCallee_ st) (func_ st)
    (funcThis_ st) (directEval_ st) (doneArgs_ st) (arguments_ st) (n_ st)
    (isConstructor st) (doneExec_ st).

Definition with_cv (x : option CompletionValue) (st : State) : State :=
  mkState (node st) (scope st) (value st) (done st) (labels st) (isLoop st)
    (isSwitch st) x (components st) (doneCallee_ st) (func_ st) (funcThis_ st)
    (directEval_ st) (doneArgs_ st) (arguments_ st) (n_ st) (isConstructor st)
    (doneExec_ st).

Definition with_components (x : bool) (st : State) : State :=
  mkState (node st) (scope st) (value st) (done st) (labels st) (isLoop st)
    (isSwitch st) (cv st) x (doneCallee_ st) (func_ st) (funcThis_ st)
    (directEval_ st) (doneArgs_ st) (arguments_ st) (n_ st) (isConstructor st)
    (doneExec_ st).

Definition with_doneCallee_ (x : CalleeProgress) (st : State) : State :=
  mkState (node st) (scope st) (value st) (done st) (labels st) (isLoop st)
    (isSwitch st) (cv st) (components st) x (func_ st) (funcThis_ st)
    (directEval_ st) (doneArgs_ st) (arguments_ st) (n_ st) (isConstructor st)
    (doneExec_ st).

Definition with_func_ (x : FrameValue) (st : State) : State :=
  mkState (node st) (scope st) (value st) (done st) (labels st) (isLoop st)
    (isSwitch st) (cv st) (components st) (doneCallee_ st) x (funcThis_ st)
    (directEval_ st) (doneArgs_ st) (arguments_ st) (n_ st) (isConstructor st)
    (doneExec_ st).

Definition with_funcThis_ (x : FrameValue) (st : State) : State :=
  mkState (node st) (scope st) (value st) (done st) (labels st) (isLoop st)
    (isSwitch st) (cv st) (components st) (doneCallee_ st) (func_ st) x
    (directEval_ st) (doneArgs_ st) (arguments_ st) (n_ st) (isConstructor st)
    (doneExec_ st).

Definition with_directEval_ (x : bool) (st : State) : State :=
  mkState (node st) (scope st) (value st) (done st) (labels st) (isLoop st)
    (isSwitch st) (cv st) (components st) (doneCallee_ st) (func_ st)
    (funcThis_ st) x (doneArgs_ st) (arguments_ st) (n_ st) (isConstructor st)
    (doneExec_ st).

Definition with_doneArgs_ (x : bool) (st : State) : State :=
  mkState (node st) (scope st) (value st) (done st) (labels st) (isLoop st)
    (isSwitch st) (cv st) (components st) (doneCallee_ st) (func_ st)
    (funcThis_ st) (directEval_ st) x (arguments_ st) (n_ st)
    (isConstructor st) (doneExec_ st).

Definition with_arguments_ (x : list FrameValue) (st : State) : State :=
  mkState (node st) (scope st) (value st) (done st) (labels st) (isLoop st)
    (isSwitch st) (cv st) (components st) (doneCallee_ st) (func_ st)
    (funcThis_ st) (directEval_ st) (doneArgs_ st) x (n_ st)
    (isConstructor st) (doneExec_ st).

Definition with_n_ (x : nat) (st : State) : State :=
  mkState (node st) (scope st) (value st) (done st) (labels st) (isLoop st)
    (isSwitch st) (cv st) (components st) (doneCallee_ st) (func_ st)
    (funcThis_ st) (directEval_ st) (doneArgs_ st) (arguments_ st) x
    (isConstructor st) (doneExec_ st).

Definition with_isConstructor (x : bool) (st : State) : State :=
  mkState (node st) (scope st) (value st) (done st) (labels st) (isLoop st)
    (isSwitch st) (cv st) (components st) (doneCallee_ st) (func_ st)
    (funcThis_ st) (directEval_ st) (doneArgs_ st) (arguments_ st) (n_ st) x
    (doneExec_ st).

Definition with_doneExec_ (x : bool) (st : State) : State :=
  mkState (node st) (scope st) (value st) (done st) (labels st) (isLoop st)
    (isSwitch st) (cv st) (components st) (doneCallee_ st) (func_ st)
    (funcThis_ st) (directEval_ st) (doneArgs_ st) (arguments_ st) (n_ st)
    (isConstructor st) x.

(** An [Interpreter] whose constructor has finished: the built-in objects
    exist and [stateStack] is an array.  [stateStack] is kept with the top
    frame ([stack[stack.length - 1]]) at the head of the list. *)
Record Interp : Type := mkInterp {
  heap : list InterpreterObject;
  scopes : list Scope;
  stateStack : list State;
  globalScope : nat;
  globalObject : loc;
  paused_ : bool;
  getterStep_ : bool;
  setterStep_ : bool;
  this_value : val;
  functionCounter_ : nat;
  POLYFILL_TIMEOUT : option Z;
  OBJECT_PROTO : loc;
  FUNCTION_PROTO : loc;
  ARRAY_PROTO : loc;
  REGEXP_PROTO : loc;
  DATE_PROTO : loc;
  OBJECT : loc;
  FUNCTION : loc;
  ARRAY : loc;
  STRING : loc;
  NUMBER : loc;
  BOOLEAN : loc;
  DATE : loc;
  REGEXP : loc;
  ERROR : loc;
  RANGE_ERROR : loc;
  REFERENCE_ERROR : loc;
  SYNTAX_ERROR : loc;
  TYPE_ERROR : loc }.

Definition set_heap (h : list InterpreterObject) (s : Interp) : Interp :=
  mkInterp h (scopes s) (stateStack s) (globalScope s) (globalObject s)
    (paused_ s) (getterStep_ s) (setterStep_ s) (this_value s)
    (functionCounter_ s) (POLYFILL_TIMEOUT s) (OBJECT_PROTO s) (FUNCTION_PROTO s)
    (ARRAY_PROTO s) (REGEXP_PROTO s) (DATE_PROTO s) (OBJECT s) (FUNCTION s)
    (ARRAY s) (STRING s) (NUMBER s) (BOOLEAN s) (DATE s) (REGEXP s) (ERROR s)
    (RANGE_ERROR s) (REFERENCE_ERROR s) (SYNTAX_ERROR s) (TYPE_ERROR s).

Definition set_stateStack (st : list State) (s : Interp) : Interp :=
  mkInterp (heap s) (scopes s) st (globalScope s) (globalObject s)
    (paused_ s) (getterStep_ s) (setterStep_ s) (this_value s)
    (functionCounter_ s) (POLYFILL_TIMEOUT s) (OBJECT_PROTO s) (FUNCTION_PROTO s)
    (ARRAY_PROTO s) (REGEXP_PROTO s) (DATE_PROTO s) (OBJECT s) (FUNCTION s)
    (ARRAY s) (STRING s) (NUMBER s) (BOOLEAN s) (DATE s) (REGEXP s) (ERROR s)
    (RANGE_ERROR s) (REFERENCE_ERROR s) (SYNTAX_ERROR s) (TYPE_ERROR s).

Definition set_paused_ (b : bool) (s : Interp) : Interp :=
  mkInterp (heap s) (scopes s) (stateStack s) (globalScope s) (globalObject s)
    b (getterStep_ s) (setterStep_ s) (this_value s)
    (functionCounter_ s) (POLYFILL_TIMEOUT s) (OBJECT_PROTO s) (FUNCTION_PROTO s)
    (ARRAY_PROTO s) (REGEXP_PROTO s) (DATE_PROTO s) (OBJECT s) (FUNCTION s)
    (ARRAY s) (STRING s) (NUMBER s) (BOOLEAN s) (DATE s) (REGEXP s) (ERROR s)
    (RANGE_ERROR s) (REFERENCE_ERROR s) (SYNTAX_ERROR s) (TYPE_ERROR s).

Definition set_getterStep_ (b : bool) (s : Interp) : Interp :=
  mkInterp (heap s) (scopes s) (stateStack s) (globalScope s) (globalObject s)
    (paused_ s) b (setterStep_ s) (this_value s)
    (functionCounter_ s) (POLYFILL_TIMEOUT s) (OBJECT_PROTO s) (FUNCTION_PROTO s)
    (ARRAY_PROTO s) (REGEXP_PROTO s) (DATE_PROTO s) (OBJECT s) (FUNCTION s)
    (ARRAY s) (STRING s) (NUMBER s) (BOOLEAN s) (DATE s) (REGEXP s) (ERROR s)
    (RANGE_ERROR s) (REFERENCE_ERROR s) (SYNTAX_ERROR s) (TYPE_ERROR s).

Definition set_setterStep_ (b : bool) (s : Interp) : Interp :=
  mkInterp (heap s) (scopes s) (stateStack s) (globalScope s) (globalObject s)
    (paused_ s) (getterStep_ s) b (this_value s)
    (functionCounter_ s) (POLYFILL_TIMEOUT s) (OBJECT_PROTO s) (FUNCTION_PROTO s)
    (ARRAY_PROTO s) (REGEXP_PROTO s) (DATE_PROTO s) (OBJECT s) (FUNCTION s)
    (ARRAY s) (STRING s) (NUMBER s) (BOOLEAN s) (DATE s) (REGEXP s) (ERROR s)
    (RANGE_ERROR s) (REFERENCE_ERROR s) (SYNTAX_ERROR s) (TYPE_ERROR s).

Definition set_functionCounter_ (n : nat) (s : Interp) : Interp :=
  mkInterp (heap s) (scopes s) (stateStack s) (globalScope s) (globalObject s)
    (paused_ s) (getterStep_ s) (setterStep_ s) (this_value s)
    n (POLYFILL_TIMEOUT s) (OBJECT_PROTO s) (FUNCTION_PROTO s)
    (ARRAY_PROTO s) (REGEXP_PROTO s) (DATE_PROTO s) (OBJECT s) (FUNCTION s)
    (ARRAY s) (STRING s) (NUMBER s) (BOOLEAN s) (DATE s) (REGEXP s) (ERROR s)
    (RANGE_ERROR s) (REFERENCE_ERROR s) (SYNTAX_ERROR s) (TYPE_ERROR s).

(** The object behind a reference.  Every reference held by the interpreter
    is live, so the default is never used on a well-formed heap. *)
Definition obj_at (s : Interp) (l : loc) : InterpreterObject :=
  default (new_InterpreterObject None) (heap s !! l).

Definition update_obj (l : loc) (f : InterpreterObject -> InterpreterObject)
  (s : Interp) : Interp :=
  set_heap (alter f l (heap s)) s.

(** The heap with the object at [l] replaced by [o]. *)
Definition put_obj (l : loc) (o : InterpreterObject) (s : Interp) : Interp :=
  set_heap (<[l := o]> (heap s)) s.

Definition with_properties (m : PropMap) (o : InterpreterObject) : InterpreterObject :=
  mkObject (proto o) (class o) m (getter o) (setter o) (illegalConstructor o)
    (preventExtensions o) (eval o) (nativeFunc o) (asyncFunc o) (func_node o)
    (func_parentScope o).

Definition with_getter (g : alist val) (o : InterpreterObject) : InterpreterObject :=
  mkObject (proto o) (class o) (properties o) g (setter o) (illegalConstructor o)
    (preventExtensions o) (eval o) (nativeFunc o) (asyncFunc o) (func_node o)
    (func_parentScope o).

Definition with_setter (g : alist val) (o : InterpreterObject) : InterpreterObject :=
  mkObject (proto o) (class o) (properties o) (getter o) g (illegalConstructor o)
    (preventExtensions o) (eval o) (nativeFunc o) (asyncFunc o) (func_node o)
    (func_parentScope o).

Definition with_class (c : string) (o : InterpreterObject) : InterpreterObject :=
  mkObject (proto o) (Some c) (properties o) (getter o) (setter o)
    (illegalConstructor o) (preventExtensions o) (eval o) (nativeFunc o)
    (asyncFunc o) (func_node o) (func_parentScope o).

Definition with_illegalConstructor (b : bool) (o : InterpreterObject)
  : InterpreterObject :=
  mkObject (proto o) (class o) (properties o) (getter o) (setter o) b
    (preventExtensions o) (eval o) (nativeFunc o) (asyncFunc o) (func_node o)
    (func_parentScope o).

Definition with_nativeFunc (f : nat) (o : InterpreterObject) : InterpreterObject :=
  mkObject (proto o) (class o) (properties o) (getter o) (setter o)
    (illegalConstructor o) (preventExtensions o) (eval o) (Some f)
    (asyncFunc o) (func_node o) (func_parentScope o).

(** ** The monad of interpreter methods *)

(** A method call ends in one of three ways: it returns, it throws
    [STEP_ERROR] (the interpreted exception has been put on the state stack),
    or it throws a real host exception.  [Diverge] stands for a call that
    never ends. *)
Inductive result (A : Type) : Type :=
| Ok (a : A) (s : Interp)
| StepError (s : Interp)
| HostError (e : HostExn) (s : Interp)
| Diverge.
Arguments Ok {A} a s.
Arguments StepError {A} s.
Arguments HostError {A} e s.
Arguments Diverge {A}.

Definition M (A : Type) : Type := Interp -> result A.

Definition ret {A} (a : A) : M A := fun s => Ok a s.

Definition bind {A B} (m : M A) (k : A -> M B) : M B :=
  fun s =>
    match m s with
    | Ok a s' => k a s'
    | StepError s' => StepError s'
    | HostError e s' => HostError e s'
    | Diverge => Diverge
    end.

Declare Scope interp_scope.
Delimit Scope interp_scope with interp.
Notation "x <- c1 ;; c2" := (bind c1 (fun x => c2))
  (at level 100, c1 at next level, right associativity) : interp_scope.
Notation "c1 ;; c2" := (bind c1 (fun _ => c2))
  (at level 100, right associativity) : interp_scope.
Local Open Scope interp_scope.

Definition gets {A} (f : Interp -> A) : M A := fun s => Ok (f s) s.
Definition modify (f : Interp -> Interp) : M unit := fun s => Ok tt (f s).
Definition host_throw {A} (e : HostExn) : M A := fun s => HostError e s.
Definition throw_STEP_ERROR {A} : M A := fun s => StepError s.

(** Run a read-only computation. *)
Definition liftH {A} (r : Interp -> hostres A) : M A :=
  fun s =>
    match r s with
    | HOk a => Ok a s
    | HThrow e => HostError e s
    | HDiverge => Diverge
    end.

(** The state a call leaves behind, when it ends. *)
Definition final_state {A} (r : result A) : option Interp :=
  match r with
  | Ok _ s | StepError s | HostError _ s => Some s
  | Diverge => None
  end.

(** ** Prototype chains and object creation *)

Section Methods.
Context `{Host}.

(** A walk along a prototype chain visits each object at most once unless the
    chain is cyclic, in which case the source never leaves its loop.  This
    many iterations are therefore enough for every walk that ends. *)
Definition chain_fuel (s : Interp) : nat := (length (heap s) + 5)%nat.

(** Look up the prototype for this value. *)
Definition getPrototype (s : Interp) (value : val) : hostres val :=
  match value with
  | VNum _ => host_get (properties (obj_at s (NUMBER s))) "prototype"
  | VBool _ => host_get (properties (obj_at s (BOOLEAN s))) "prototype"
  | VStr _ => host_get (properties (obj_at s (STRING s))) "prototype"
  | VObj l => HOk (match proto (obj_at s l) with Some p => VObj p | None => VNull end)
  | VUndef | VNull => HOk VNull
  end.

(** [child.proto] *)
Definition dot_proto (s : Interp) (child : val) : val :=
  match child with
  | VObj l => match proto (obj_at s l) with Some p => VObj p | None => VNull end
  | _ => VUndef
  end.

Fixpoint isa_loop (fuel : nat) (s : Interp) (child proto : val) : hostres bool :=
  match fuel with
  | O => HDiverge
  | S fuel' =>
      if truthy child then
        if strict_eq child proto then HOk true
        else isa_loop fuel' s (dot_proto s child) proto
      else HOk false
  end.

(** Is an object of a certain class?  [constructor] is one of the built-in
    constructor objects. *)
Definition isa (s : Interp) (child : val) (constructor : loc) : hostres bool :=
  match child with
  | VNull | VUndef => HOk false
  | _ =>
      hbind (host_get (properties (obj_at s constructor)) "prototype") (fun proto =>
      if strict_eq child proto then HOk true
      else
        (* The first step up the prototype chain is harder since the child
           might be a primitive value. *)
        hbind (getPrototype s child) (fun child' =>
        isa_loop (chain_fuel s) s child' proto))
  end.

(** [obj.properties && name in obj.properties] *)
Definition own_in (s : Interp) (obj : val) (name : string) : bool :=
  match obj with
  | VObj l => ain name (properties (obj_at s l))
  | _ => false
  end.

(** [!isNaN(n) && n < String(obj).length] with [n = legalArrayIndex(name)] *)
Definition string_index_in_range (s : Interp) (obj : val) (name : string) : bool :=
  let n := legalArrayIndex name in
  negb (isNaN n) &&
  number_lt n (NInt (Z.of_nat (String.length (ToString (heap s) obj)))).

Fixpoint has_loop (fuel : nat) (s : Interp) (obj : val) (name : string)
  : hostres bool :=
  match fuel with
  | O => HDiverge
  | S fuel' =>
      if own_in s obj name then HOk true
      else
        hbind (getPrototype s obj) (fun p =>
        if truthy p then has_loop fuel' s p name else HOk false)
  end.

(** Does the named property exist on a data object. *)
Definition hasProperty (s : Interp) (obj : val) (name : string) : hostres bool :=
  match obj with
  | VObj _ =>
      hbind (isa s obj (STRING s)) (fun isString =>
      if String.eqb name "length" && isString then HOk true
      else if isString && string_index_in_range s obj name then HOk true
      else has_loop (chain_fuel s) s obj name)
  | _ => HThrow (Thrown "TypeError" (VStr "Primitive data type has no properties"))
  end.

(** Create a new data object based on a prototype. *)
Definition createObjectProto (p : val) : M val :=
  fun s =>
    match p with
    | VObj _ | VNull =>
        let l := length (heap s) in
        let obj := new_InterpreterObject
                     (match p with VObj q => Some q | _ => None end) in
        let s1 := set_heap (heap s ++ [obj]) s in
        match isa s1 (VObj l) (ERROR s1) with
        | HOk true => Ok (VObj l) (update_obj l (with_class "Error") s1)
        | HOk false => Ok (VObj l) s1
        | HThrow e => HostError e s1
        | HDiverge => Diverge
        end
    | _ => HostError (Thrown "Error" (VStr "Non object prototype")) s
    end.

(** Create a new data object based on a constructor's prototype. *)
Definition createObject (constructor : val) : M val :=
  fun s =>
    match constructor with
    | VObj c =>
        match host_get (properties (obj_at s c)) "prototype" with
        | HOk p => createObjectProto p s
        | HThrow e => HostError e s
        | HDiverge => Diverge
        end
    | _ =>
        if truthy constructor
        then HostError (Thrown "TypeError"
               (VStr "Cannot read properties of undefined (reading 'prototype')")) s
        else createObjectProto constructor s
    end.

(** Returns the current scope from the stateStack. *)
Definition getScope (s : Interp) : hostres nat :=
  match stateStack s with
  | [] => HThrow (Thrown "TypeError"
            (VStr "Cannot read properties of undefined (reading 'scope')"))
  | state :: _ =>
      match scope state with
      | Some sc => HOk sc
      | None => HThrow (Thrown "Error" (VStr "No scope found."))
      end
  end.

Definition scope_at (s : Interp) (sc : nat) : Scope :=
  default (mkScope None false 0%nat) (scopes s !! sc).

(** [!this.stateStack || this.getScope().strict] *)
Definition current_strict : M bool :=
  sc <- liftH getScope ;; gets (fun s => strict (scope_at s sc)).

(** ** Property access, unwinding and interpreted exceptions

    [getProperty], [setProperty] and [unwind] call [throwException], which
    calls [setProperty] and [unwind] again.  The methods are first written
    against an arbitrary [throwE]; the recursion is closed below. *)

Section Knot.
Variable throwE : forall A : Type, val -> val -> M A.

Definition throwE_at {A} (cls : Interp -> loc) (msg : Interp -> string) : M A :=
  fun s => throwE A (VObj (cls s)) (VStr (msg s)) s.

Definition getProperty_string_case (s : Interp) (obj : val) (name : string)
  : hostres (option val) :=
  let str := ToString (heap s) obj in
  if String.eqb name "length" then
    (* Special cases for magic length property. *)
    hbind (isa s obj (STRING s)) (fun b =>
    HOk (if b then Some (VNum (NInt (Z.of_nat (String.length str)))) else None))
  else
    match name with
    | String c _ =>
        if (Z.of_nat (nat_of_ascii c) <? 64) then
          (* Special cases for string array indexing *)
          hbind (isa s obj (STRING s)) (fun b =>
          if b && string_index_in_range s obj name
          then HOk (Some (VStr (String.substring
                                  (Z.to_nat (ToUint32 (legalArrayIndex name))) 1 str)))
          else HOk None)
        else HOk None
    | EmptyString => HOk None
    end.

Fixpoint get_loop (fuel : nat) (obj : val) (name : string) : M val :=
  fun s =>
    match fuel with
    | O => Diverge
    | S fuel' =>
        if own_in s obj name then
          match obj with
          | VObj l =>
              let getter := default VUndef (aget name (getter (obj_at s l))) in
              if truthy getter then
                (* Flag this function as being a getter and thus needing
                   immediate execution. *)
                Ok getter (set_getterStep_ true s)
              else liftH (fun s => host_get (properties (obj_at s l)) name) s
          | _ => Ok VUndef s
          end
        else
          match getPrototype s obj with
          | HOk p => if truthy p then get_loop fuel' p name s else Ok VUndef s
          | HThrow e => HostError e s
          | HDiverge => Diverge
          end
    end.

(** Fetch a property value from a data object.  [name] is already the string
    [String(name)]. *)
Definition getProperty_ (obj : val) (name : string) : M val :=
  fun s =>
    if getterStep_ s
    then HostError (Thrown "Error" (VStr "Getter not supported in that context")) s
    else
      match obj with
      | VUndef | VNull =>
          throwE val (VObj (TYPE_ERROR s))
            (VStr ("Cannot read property '" ++ name ++ "' of " ++
                   ToString (heap s) obj)) s
      | _ =>
          match getProperty_string_case s obj name with
          | HOk (Some v) => Ok v s
          | HOk None => get_loop (chain_fuel s) obj name s
          | HThrow e => HostError e s
          | HDiverge => Diverge
          end
      end.

(** The keys that [for (i in m)] produces. *)
Definition enumerable_keys (m : PropMap) : list string :=
  map fst (List.filter (fun kv => enumerable (snd kv)) m).

(** [for (i in obj.properties) { i = legalArrayIndex(i);
      if (!isNaN(i) && value <= i) delete obj.properties[i]; }]
    The map reached so far is kept when a [delete] throws. *)
Fixpoint delete_indices_from (value : number) (keys : list string) (m : PropMap)
  : PropMap * option HostExn :=
  match keys with
  | [] => (m, None)
  | k :: keys' =>
      let i := legalArrayIndex k in
      if negb (isNaN i) && number_le value i then
        match host_delete m k with
        | HOk m' => delete_indices_from value keys' m'
        | HThrow e => (m, Some e)
        | HDiverge => (m, None)
        end
      else delete_indices_from value keys' m
  end.

Definition legalArrayLength_sv (h : list InterpreterObject) (value : setval) : number :=
  match value with
  | SV v => legalArrayLength h v
  | VALUE_IN_DESCRIPTOR => NaN
  end.

(** The block guarded by [obj.class === 'Array'].  [None] is the block's
    [return]; otherwise the (possibly replaced) [value] is passed on. *)
Definition setProperty_array_ (l : loc) (name : string) (value : setval)
  (opt_descriptor : option Descriptor) : M (option setval) :=
  (* Arrays have a magic length variable that is bound to the elements. *)
  len <- liftH (fun s => host_get (properties (obj_at s l)) "length") ;;
  if String.eqb name "length" then
    let truncate (value : setval) : M (option setval) :=
      h <- gets heap ;;
      let value' := legalArrayLength_sv h value in
      if isNaN value'
      then throwE_at RANGE_ERROR (fun _ => "Invalid array length")
      else
        (if number_lt value' (ToNumber h len) then
           fun s =>
             let (m', e) := delete_indices_from value'
                              (enumerable_keys (properties (obj_at s l)))
                              (properties (obj_at s l)) in
             let s' := update_obj l (with_properties m') s in
             match e with
             | None => Ok tt s'
             | Some e => HostError e s'
             end
         else ret tt) ;;
        ret (Some (SV (VNum value'))) in
    match opt_descriptor with
    | Some d =>
        match d_value d with
        | None => ret None
        | Some v => truncate (SV v)
        end
    | None => truncate value
    end
  else
    let i := legalArrayIndex name in
    if negb (isNaN i) then
      (* Increase length if this index is larger. *)
      fun s =>
        let newlen := VNum (Math_max (ToNumber (heap s) len) (number_succ i)) in
        match host_set (properties (obj_at s l)) "length" newlen with
        | HOk m' => Ok (Some value) (update_obj l (with_properties m') s)
        | HThrow e => HostError e s
        | HDiverge => Diverge
        end
    else ret (Some value).

Definition desc_truthy (x : option val) : bool :=
  match x with Some v => truthy v | None => false end.

(** The branch [if (opt_descriptor) { ... }]: define the property. *)
Definition setProperty_define_ (l : loc) (name : string) (value : setval)
  (d : Descriptor) : M val :=
  let drop_accessors (o : InterpreterObject) :=
    with_setter (aremove name (setter o)) (with_getter (aremove name (getter o)) o) in
  modify (update_obj l (fun o =>
    let o := if desc_truthy (d_get d)
             then with_getter (aput name (default VUndef (d_get d)) (getter o)) o
             else o in
    let o := if desc_truthy (d_set d)
             then with_setter (aput name (default VUndef (d_set d)) (setter o)) o
             else o in
    let o := if present (d_writable d) then drop_accessors o else o in
    match d_value d, value with
    | Some _, _ => drop_accessors o
    | None, SV _ => drop_accessors o
    | None, VALUE_IN_DESCRIPTOR => o
    end)) ;;
  let descriptor :=
    {| hd_get := desc_truthy (d_get d);
       hd_set := desc_truthy (d_set d);
       hd_configurable := d_configurable d;
       hd_enumerable := d_enumerable d;
       hd_writable := d_writable d;
       hd_value := match d_value d, value with
                   | Some v, _ => Some v
                   | None, SV v => Some v
                   | None, VALUE_IN_DESCRIPTOR => None
                   end |} in
  o <- gets (fun s => obj_at s l) ;;
  match host_defineProperty (properties o) name descriptor with
  | HOk m' =>
      modify (update_obj l (with_properties m')) ;;
      (* Now that the definition has suceeded, clean up any obsolete get/set
         funcs. *)
      modify (update_obj l (fun o =>
        let o := if present (d_get d) && negb (desc_truthy (d_get d))
                 then with_getter (aremove name (getter o)) o else o in
        if present (d_set d) && negb (desc_truthy (d_set d))
        then with_setter (aremove name (setter o)) o else o)) ;;
      ret VUndef
  | HThrow _ =>
      throwE_at TYPE_ERROR (fun _ => "Cannot redefine property: " ++ name)
  | HDiverge => fun _ => Diverge
  end.

(** Determine the parent (possibly self) where the property is defined. *)
Fixpoint find_defObj (fuel : nat) (s : Interp) (obj defObj : loc) (name : string)
  : option loc :=
  match fuel with
  | O => None
  | S fuel' =>
      if ain name (properties (obj_at s defObj)) then Some defObj
      else
        match proto (obj_at s defObj) with
        | Some p => find_defObj fuel' s obj p name
        | None => Some obj (* This is a new property. *)
        end
  end.

(** The branch [else { ... }]: set the property. *)
Definition setProperty_assign_ (l : loc) (name : string) (value : setval)
  (strict : bool) : M val :=
  match value with
  | VALUE_IN_DESCRIPTOR =>
      host_throw (Thrown "ReferenceError" (VStr "Value not specified."))
  | SV v =>
      fun s =>
        match find_defObj (chain_fuel s) s l l name with
        | None => Diverge
        | Some defObj =>
            let d := obj_at s defObj in
            let setter := default VUndef (aget name (setter d)) in
            if truthy setter then Ok setter (set_setterStep_ true s)
            else if truthy (default VUndef (aget name (getter d))) then
              if strict then
                throwE val (VObj (TYPE_ERROR s))
                  (VStr ("Cannot set property '" ++ name ++ "' of object '" ++
                         ToString (heap s) (VObj l) ++ "' which only has a getter")) s
              else Ok VUndef s
            else
              (* No setter, simple assignment. *)
              match host_set (properties (obj_at s l)) name v with
              | HOk m' => Ok VUndef (update_obj l (with_properties m') s)
              | HThrow _ =>
                  if strict then
                    throwE val (VObj (TYPE_ERROR s))
                      (VStr ("Cannot assign to read only property '" ++ name ++
                             "' of object '" ++ ToString (heap s) (VObj l) ++ "'")) s
                  else Ok VUndef s
              | HDiverge => Diverge
              end
        end
  end.

(** [setProperty] once the receiver is known to be an [InterpreterObject]. *)
Definition setProperty_object_ (l : loc) (name : string) (value : setval)
  (opt_descriptor : option Descriptor) (strict : bool) : M val :=
  isString <- liftH (fun s => isa s (VObj l) (STRING s)) ;;
  inRange <- gets (fun s => string_index_in_range s (VObj l) name) ;;
  if isString && (String.eqb name "length" || inRange) then
    (* Can't set length or letters on String objects. *)
    if strict then
      throwE_at TYPE_ERROR (fun _ =>
        "Cannot assign to read only property '" ++ name ++ "' of String 'null'")
    else ret VUndef
  else
    o <- gets (fun s => obj_at s l) ;;
    r <- (if class_is o "Array"
          then setProperty_array_ l name value opt_descriptor
          else ret (Some value)) ;;
    match r with
    | None => ret VUndef
    | Some value =>
        o <- gets (fun s => obj_at s l) ;;
        if preventExtensions o && negb (ain name (properties o)) then
          if strict then
            throwE_at TYPE_ERROR (fun _ =>
              "Can't add property '" ++ name ++ "', object is not extensible")
          else ret VUndef
        else
          match opt_descriptor with
          | Some d => setProperty_define_ l name value d
          | None => setProperty_assign_ l name value strict
          end
    end.

Definition invalid_descriptor (opt_descriptor : option Descriptor) : bool :=
  match opt_descriptor with
  | Some d =>
      (present (d_get d) || present (d_set d)) &&
      (present (d_value d) || present (d_writable d))
  | None => false
  end.

(** Set a property value on a data object.  Returns a setter function if one
    needs to be called, otherwise undefined.  [name] is already the string
    [String(name)]. *)
Definition setProperty_ (obj : val) (name : string) (value : setval)
  (opt_descriptor : option Descriptor) : M val :=
  fun s =>
    if setterStep_ s
    then HostError (Thrown "Error" (VStr "Setter not supported in that context")) s
    else
      match obj with
      | VUndef | VNull =>
          throwE val (VObj (TYPE_ERROR s))
            (VStr ("Cannot set property '" ++ name ++ "' of " ++
                   ToString (heap s) obj)) s
      | _ =>
          if invalid_descriptor opt_descriptor then
            throwE val (VObj (TYPE_ERROR s))
              (VStr ("Invalid property descriptor. " ++
                     "Cannot both specify accessors and a value or writable attribute")) s
          else
            (strict <- current_strict ;;
             match obj with
             | VObj l => setProperty_object_ l name value opt_descriptor strict
             | _ =>
                 if strict then
                   throwE_at TYPE_ERROR (fun s =>
                     "Can't create property '" ++ name ++ "' on '" ++
                     ToString (heap s) obj ++ "'")
                 else ret VUndef
             end) s
      end.

(** The [for] loop of [unwind]: what became of the completion, and the stack
    it leaves. *)
Inductive UnwindOutcome : Type :=
| Handled
| Unsyntactic
| Unhandled.

Definition has_label (st : State) (label : string) : bool :=
  match labels st with
  | Some ls => bool_decide (label ∈ ls)
  | None => false
  end.

Fixpoint unwind_loop (type : Completion) (v : val) (label : option string)
  (stack : list State) : UnwindOutcome * list State :=
  match stack with
  | [] => (Unhandled, [])
  | state :: rest =>
      let after_switch :=
        match type with
        | BREAK =>
            if match label with
               | Some lb => has_label state lb
               | None => isLoop state || isSwitch state
               end
            then (Handled, rest)
            else unwind_loop type v label rest
        | CONTINUE =>
            if match label with
               | Some lb => has_label state lb
               | None => isLoop state
               end
            then (Handled, stack)
            else unwind_loop type v label rest
        | _ => unwind_loop type v label rest
        end in
      let t := ntype (node state) in
      if String.eqb t "TryStatement" then
        (Handled, with_cv (Some (mkCV type v label)) state :: rest)
      else if String.eqb t "CallExpression" || String.eqb t "NewExpression" then
        match type with
        | RETURN => (Handled, with_value (FV v) state :: rest)
        | THROW => after_switch
        | _ => (Unsyntactic, stack)
        end
      else if String.eqb t "Program" then
        (* Don't pop the stateStack. *)
        (Unhandled, with_done true state :: rest)
      else after_switch
  end.

(** The host error constructor selected by [errorTable[name] || Error]. *)
Definition errorTable (name : string) : string :=
  if bool_decide (name ∈ ["EvalError"; "RangeError"; "ReferenceError";
                          "SyntaxError"; "TypeError"; "URIError"])
  then name else "Error".

(** Unwind the stack to the innermost relevant enclosing TryStatement,
    For/ForIn/WhileStatement or Call/NewExpression. *)
Definition unwind_ (type : Completion) (v : val) (label : option string) : M unit :=
  match type with
  | NORMAL =>
      host_throw (Thrown "TypeError" (VStr "Should not unwind for NORMAL completions"))
  | _ =>
      fun s =>
        let (outcome, stack') := unwind_loop type v label (stateStack s) in
        let s' := set_stateStack stack' s in
        match outcome with
        | Handled => Ok tt s'
        | Unsyntactic =>
            HostError (Thrown "Error"
              (VStr "Unsynatctic break/continue not rejected by Acorn")) s'
        | Unhandled =>
            (* Unhandled completion.  Throw a real error. *)
            (isError <- liftH (fun s => isa s v (ERROR s)) ;;
             if isError then
               name <- getProperty_ v "name" ;;
               message <- getProperty_ v "message" ;;
               h <- gets heap ;;
               match message with
               | VUndef | VNull =>
                   host_throw (Thrown "TypeError"
                     (VStr "Cannot read properties of undefined (reading 'valueOf')"))
               | _ => host_throw (Thrown (errorTable (ToString h name)) message)
               end
             else
               h <- gets heap ;; host_throw (ThrownString (ToString h v))) s'
        end
  end.

(** The body of [throwException(errorClass, opt_message = null)].  The
    parameter default replaces an omitted message by [null], so the test
    [opt_message === undefined] never holds and an error object is always
    created. *)
Definition throwException_body {A} (errorClass : val) (opt_message : val) : M A :=
  error <- createObject errorClass ;;
  setProperty_ error "message" (SV opt_message) (Some NONENUMERABLE_DESCRIPTOR) ;;
  unwind_ THROW error None ;;
  (* Abort anything related to the current step. *)
  throw_STEP_ERROR.

End Knot.

(** Closing the recursion: the calls that [throwException] makes on the error
    object it has just created never throw an interpreted exception
    themselves (see [throwException_unfold]), so one level is enough. *)
Fixpoint throwException_n (n : nat) (A : Type) (errorClass opt_message : val) : M A :=
  match n with
  | O => fun _ => Diverge
  | S n' => throwException_body (throwException_n n') errorClass opt_message
  end.

(** Throw an exception in the interpreter that can be handled by an
    interpreter try/catch statement. *)
Definition throwException {A} (errorClass opt_message : val) : M A :=
  throwException_n 1 A errorClass opt_message.

Definition getProperty : val -> string -> M val :=
  getProperty_ (@throwException).
Definition setProperty : val -> string -> setval -> option Descriptor -> M val :=
  setProperty_ (@throwException).
Definition unwind : Completion -> val -> option string -> M unit :=
  unwind_ (@throwException).

End Methods.

(** ** Object factories and the host bridge *)

(** A host value as the bridge sees it: an interpreter value (a primitive or
    an [InterpreterObject] instance), or a host object of one of the kinds
    that [nativeToPseudo] tells apart.  A host record lists its enumerable
    properties in [for-in] order; an array lists its slots, [None] for a
    hole.  [HBackRef i] is the alias [cycles.native[i]] of an enclosing host
    object that is still being filled in. *)
Inductive hval : Type :=
| HVal (v : val)
| HArray (elements : list (option hval))
| HObject (props : list (string * hval))
| HRegExp (source flags : string) (lastIndex : number)
| HDate (time : number)
| HFunction (has_prototype : bool)
| HBackRef (i : nat).

(** [obj.data = x]: [InterpreterObject] declares [data] with a getter only,
    and the source is strict-mode code, so the assignment throws. *)
Definition InterpreterObject_set_data {A} : M A :=
  host_throw (Thrown "TypeError"
    (VStr "Cannot set property data of #<InterpreterObject> which has only a getter")).

(** [obj.data]: [get data() { return null; }] *)
Definition InterpreterObject_data : val := VNull.

Section Bridge.
Context `{Host}.

(** Create a new array. *)
Definition createArray : M val :=
  p <- gets ARRAY_PROTO ;;
  array <- createObjectProto (VObj p) ;;
  (* Arrays have length. *)
  setProperty array "length" (SV (VNum (NInt 0)))
    (Some (flags_descriptor false false true)) ;;
  match array with
  | VObj l => modify (update_obj l (with_class "Array")) ;; ret array
  | _ => ret array
  end.

(** Create a new function object (could become interpreted or native or
    async). *)
Definition createFunctionBase_ (argumentLength : nat) (isConstructor : bool)
  : M val :=
  fp <- gets FUNCTION_PROTO ;;
  func <- createObjectProto (VObj fp) ;;
  match func with
  | VObj f =>
      (if isConstructor then
         op <- gets OBJECT_PROTO ;;
         proto <- createObjectProto (VObj op) ;;
         setProperty func "prototype" (SV proto) (Some NONENUMERABLE_DESCRIPTOR) ;;
         setProperty proto "constructor" (SV func) (Some NONENUMERABLE_DESCRIPTOR) ;;
         ret tt
       else modify (update_obj f (with_illegalConstructor true))) ;;
      setProperty func "length" (SV (VNum (NInt (Z.of_nat argumentLength))))
        (Some READONLY_NONENUMERABLE_DESCRIPTOR) ;;
      modify (update_obj f (with_class "Function")) ;;
      ret func
  | _ => ret func
  end.

(** Create a new native function.  The host function is given by its
    [length] and [name]; the object remembers it by the [id] it receives. *)
Definition createNativeFunction (nativeFunc_length : nat) (nativeFunc_name : string)
  (isConstructor : bool) : M val :=
  func <- createFunctionBase_ nativeFunc_length isConstructor ;;
  id <- gets functionCounter_ ;;
  match func with
  | VObj f => modify (update_obj f (with_nativeFunc id))
  | _ => ret tt
  end ;;
  modify (set_functionCounter_ (S id)) ;;
  setProperty func "name" (SV (VStr nativeFunc_name))
    (Some READONLY_NONENUMERABLE_DESCRIPTOR) ;;
  ret func.

Definition has_flag (c : string) (flags : string) : bool :=
  match index 0 c flags with Some _ => true | None => false end.

(** Initialize a pseudo regular expression object based on a native regular
    expression object. *)
Definition populateRegExp (pseudoRegexp : val) (source flags : string)
  (lastIndex : number) : M unit :=
  (* pseudoRegexp.data = new RegExp(nativeRegexp.source, nativeRegexp.flags) *)
  @InterpreterObject_set_data unit ;;
  (* lastIndex is settable, all others are read-only attributes *)
  setProperty pseudoRegexp "lastIndex" (SV (VNum lastIndex))
    (Some NONENUMERABLE_DESCRIPTOR) ;;
  setProperty pseudoRegexp "source" (SV (VStr source))
    (Some READONLY_NONENUMERABLE_DESCRIPTOR) ;;
  setProperty pseudoRegexp "global" (SV (VBool (has_flag "g" flags)))
    (Some READONLY_NONENUMERABLE_DESCRIPTOR) ;;
  setProperty pseudoRegexp "ignoreCase" (SV (VBool (has_flag "i" flags)))
    (Some READONLY_NONENUMERABLE_DESCRIPTOR) ;;
  setProperty pseudoRegexp "multiline" (SV (VBool (has_flag "m" flags)))
    (Some READONLY_NONENUMERABLE_DESCRIPTOR) ;;
  ret tt.

(** [for (let i = 0; i < nativeObj.length; i++) { if (i in nativeObj) {
      this.setProperty(pseudoArray, i, this.nativeToPseudo(nativeObj[i])); } }]
    with the recursive call passed as [rec]. *)
Definition nativeToPseudo_array (rec : hval -> M val) (pseudoArray : val)
  : nat -> list (option hval) -> M unit :=
  fix loop (i : nat) (es : list (option hval)) : M unit :=
    match es with
    | [] => ret tt
    | None :: es' => loop (S i) es'
    | Some e :: es' =>
        v <- rec e ;;
        setProperty pseudoArray (String_of_N (N.of_nat i)) (SV v) None ;;
        loop (S i) es'
    end.

(** [for (const key in nativeObj) {
      this.setProperty(pseudoObj, key, this.nativeToPseudo(nativeObj[key])); }] *)
Definition nativeToPseudo_object (rec : hval -> M val) (pseudoObj : val)
  : list (string * hval) -> M unit :=
  fix loop (ps : list (string * hval)) : M unit :=
    match ps with
    | [] => ret tt
    | (key, x) :: ps' =>
        v <- rec x ;;
        setProperty pseudoObj key (SV v) None ;;
        loop ps'
    end.

(** Converts from a native JavaScript object or value to a JS-Interpreter
    object.  Does NOT handle cycles: on a cyclic input the recursion never
    bottoms out and the host reports a stack overflow. *)
Fixpoint nativeToPseudo (nativeObj : hval) : M val :=
  match nativeObj with
  | HVal (VObj _) => host_throw (Thrown "Error" (VStr "Object is already pseudo"))
  | HVal v => ret v
  | HRegExp source flags lastIndex =>
      p <- gets REGEXP_PROTO ;;
      pseudoRegexp <- createObjectProto (VObj p) ;;
      populateRegExp pseudoRegexp source flags lastIndex ;;
      ret pseudoRegexp
  | HDate _ =>
      p <- gets DATE_PROTO ;;
      pseudoDate <- createObjectProto (VObj p) ;;
      (* pseudoDate.data = new Date(nativeObj.valueOf()) *)
      @InterpreterObject_set_data unit ;;
      ret pseudoDate
  | HFunction has_prototype =>
      (* const wrapper = function(...var_args) { ... } *)
      createNativeFunction 0 "wrapper" has_prototype
  | HArray elements =>
      pseudoArray <- createArray ;;
      nativeToPseudo_array nativeToPseudo pseudoArray 0%nat elements ;;
      ret pseudoArray
  | HObject props =>
      p <- gets OBJECT_PROTO ;;
      pseudoObj <- createObjectProto (VObj p) ;;
      nativeToPseudo_object nativeToPseudo pseudoObj props ;;
      ret pseudoObj
  | HBackRef _ =>
      host_throw (Thrown "RangeError" (VStr "Maximum call stack size exceeded"))
  end.

(** [cycles.pseudo.indexOf(l)] *)
Fixpoint indexOf (l : loc) (xs : list loc) : option nat :=
  match xs with
  | [] => None
  | x :: xs' => if Nat.eqb x l then Some 0%nat else option_map S (indexOf l xs')
  end.

(** [nativeObj[i] = x] on a host array whose slots below [i] are [acc]. *)
Definition array_assign (i : nat) (x : hval) (acc : list (option hval))
  : list (option hval) :=
  acc ++ replicate (i - length acc) None ++ [Some x].

(** How often [for (let i = 0; i < len; i++)] runs; [None] if forever. *)
Definition loop_count (len : number) : option nat :=
  match len with
  | NaN => Some 0%nat
  | Infinity true => Some 0%nat
  | Infinity false => None
  | NInt z => Some (Z.to_nat z)
  | NFrac m e => Some (Z.to_nat (Z.quot m (2 ^ Z.pos e) + 1))
  end.

Fixpoint pseudoToNative_array (rec : hval -> M hval) (l : loc) (count i : nat)
  (nativeObj : list (option hval)) : M (list (option hval)) :=
  match count with
  | O => ret nativeObj
  | S count' =>
      let name := String_of_N (N.of_nat i) in
      b <- liftH (fun s => hasProperty s (VObj l) name) ;;
      if b then
        v <- getProperty (VObj l) name ;;
        x <- rec (HVal v) ;;
        pseudoToNative_array rec l count' (S i) (array_assign i x nativeObj)
      else pseudoToNative_array rec l count' (S i) nativeObj
  end.

Fixpoint pseudoToNative_object (rec : hval -> M hval) (l : loc) (keys : list string)
  (nativeObj : list (string * hval)) : M (list (string * hval)) :=
  match keys with
  | [] => ret nativeObj
  | key :: keys' =>
      v <- liftH (fun s => host_get (properties (obj_at s l)) key) ;;
      x <- rec (HVal v) ;;
      (* Use defineProperty to avoid side effects if setting '__proto__'. *)
      pseudoToNative_object rec l keys' (aput key x nativeObj)
  end.

(** [pseudoToNative(pseudoObj, cycles)].  [cycles] is the list
    [cycles.pseudo]; the parallel list [cycles.native] holds the host objects
    under construction, which the result refers to by position.  Each nested
    call is made with one more object on [cycles], so the nesting depth never
    exceeds the number of objects and [fuel] below is enough. *)
Fixpoint pseudoToNative_ (fuel : nat) (pseudoObj : hval) (cycles : list loc)
  : M hval :=
  match pseudoObj with
  | HVal (VObj l) =>
      isRegExp <- liftH (fun s => isa s (VObj l) (REGEXP s)) ;;
      if isRegExp then
        (* new RegExp(pseudoObj.data.source, pseudoObj.data.flags) *)
        host_throw (Thrown "TypeError"
          (VStr "Cannot read properties of null (reading 'source')"))
      else
        isDate <- liftH (fun s => isa s (VObj l) (DATE s)) ;;
        if isDate then
          (* new Date(pseudoObj.data.valueOf()) *)
          host_throw (Thrown "TypeError"
            (VStr "Cannot read properties of null (reading 'valueOf')"))
        else
          match indexOf l cycles with
          | Some i => ret (HBackRef i)
          | None =>
              match fuel with
              | O => fun _ => Diverge
              | S fuel' =>
                  let cycles' := (cycles ++ [l])%list in
                  let rec := fun x => pseudoToNative_ fuel' x cycles' in
                  isArray <- liftH (fun s => isa s (VObj l) (ARRAY s)) ;;
                  if isArray then
                    len <- getProperty (VObj l) "length" ;;
                    h <- gets heap ;;
                    match loop_count (ToNumber h len) with
                    | Some n =>
                        a <- pseudoToNative_array rec l n 0%nat [] ;;
                        ret (HArray a)
                    | None => fun _ => Diverge
                    end
                  else
                    keys <- gets (fun s => enumerable_keys (properties (obj_at s l))) ;;
                    o <- pseudoToNative_object rec l keys [] ;;
                    ret (HObject o)
              end
          end
  | HVal v => ret (HVal v)
  | _ => host_throw (Thrown "Error" (VStr "Object is not pseudo"))
  end.

(** Converts from a JS-Interpreter object to native JavaScript object. *)
Definition pseudoToNative (pseudoObj : hval) : M hval :=
  fun s => pseudoToNative_ (S (length (heap s))) pseudoObj [] s.

End Bridge.

(** ** Scopes and the evaluator *)

(** The parts of the evaluator that run code from outside this file: the step
    functions of the other node types, the parser-dependent ways of entering
    a function body, and the host callables behind native functions. *)
Class Externals : Type := {
  (** [this.stepFunctions_[type]] for the node types not embedded here. *)
  otherSteps : string -> option (M (option State));
  (** The branch [if (funcNode) { ... }] of [stepCallExpression]. *)
  callInterpreted : loc -> M (option State);
  (** The branch [else if (func.eval) { ... }]. *)
  callEval : loc -> M (option State);
  (** [func.nativeFunc.apply(state.funcThis_, state.arguments_)] *)
  applyNative : nat -> FrameValue -> list FrameValue -> M FrameValue;
  (** [func.asyncFunc.apply(state.funcThis_, argsWithCallback)] *)
  applyAsync : nat -> FrameValue -> list FrameValue -> M unit }.

Section Evaluator.
Context `{Host} `{Externals}.

(** Where the loop
    [while (scope && scope !== this.globalScope) { if (name in
    scope.object.properties) ...; scope = scope.parentScope; }]
    stops. *)
Inductive ScopeWalk : Type :=
| FoundIn (sc : nat)
| ReachedEnd (sc : option nat).

Fixpoint scope_walk (fuel : nat) (s : Interp) (sc : option nat) (name : string)
  : option ScopeWalk :=
  match fuel with
  | O => None
  | S fuel' =>
      match sc with
      | None => Some (ReachedEnd None)
      | Some c =>
          if Nat.eqb c (globalScope s) then Some (ReachedEnd (Some c))
          else if ain name (properties (obj_at s (object (scope_at s c))))
          then Some (FoundIn c)
          else scope_walk fuel' s (parentScope (scope_at s c)) name
      end
  end.

Definition scope_fuel (s : Interp) : nat := S (length (scopes s)).

(** [this.stateStack[this.stateStack.length - 1]] *)
Definition top_state : M State :=
  fun s =>
    match stateStack s with
    | state :: _ => Ok state s
    | [] => HostError (Thrown "TypeError"
              (VStr "Cannot read properties of undefined")) s
    end.

(** An assignment to a field of the top frame. *)
Definition update_top (f : State -> State) : M unit :=
  fun s =>
    match stateStack s with
    | state :: rest => Ok tt (set_stateStack (f state :: rest) s)
    | [] => HostError (Thrown "TypeError"
              (VStr "Cannot set properties of undefined")) s
    end.

(** [stack.pop()] *)
Definition stack_pop : M unit :=
  modify (fun s => set_stateStack (tail (stateStack s)) s).

(** [prevNode['type'] === 'UnaryExpression' &&
     prevNode['operator'] === 'typeof'] *)
Definition is_typeof (prevNode : Node) : bool :=
  String.eqb (ntype prevNode) "UnaryExpression" &&
  match noperator prevNode with
  | Some op => String.eqb op "typeof"
  | None => false
  end.

(** Retrieves a value from the scope chain. *)
Definition getValueFromScope (name : string) : M val :=
  sc <- liftH getScope ;;
  fun s =>
    match scope_walk (scope_fuel s) s (Some sc) name with
    | None => Diverge
    | Some (FoundIn c) =>
        liftH (fun s => host_get (properties (obj_at s (object (scope_at s c)))) name) s
    | Some (ReachedEnd sc') =>
        (* The root scope is also an object which has inherited properties
           and could also have getters. *)
        (inGlobal <- match sc' with
                     | Some g =>
                         liftH (fun s => hasProperty s (VObj (object (scope_at s g))) name)
                     | None => ret false
                     end ;;
         if inGlobal then
           getProperty (VObj (object (scope_at s (default 0%nat sc')))) name
         else
           (* Typeof operator is unique: it can safely look at non-defined
              variables. *)
           prev <- top_state ;;
           if is_typeof (node prev) then ret VUndef
           else
             throwException (VObj (REFERENCE_ERROR s)) (VStr (name ++ " is not defined"))) s
    end.

(** Sets a value to the current scope. *)
Definition setValueToScope (name : string) (v : val) : M val :=
  sc <- liftH getScope ;;
  fun s =>
    let strict := strict (scope_at s sc) in
    match scope_walk (scope_fuel s) s (Some sc) name with
    | None => Diverge
    | Some (FoundIn c) =>
        let l := object (scope_at s c) in
        match host_set (properties (obj_at s l)) name v with
        | HOk m' => Ok VUndef (update_obj l (with_properties m') s)
        | HThrow e => HostError e s
        | HDiverge => Diverge
        end
    | Some (ReachedEnd sc') =>
        (* The root scope is also an object which has readonly properties and
           could also have setters. *)
        (allowed <- match sc' with
                    | Some g =>
                        if strict
                        then liftH (fun s => hasProperty s (VObj (object (scope_at s g))) name)
                        else ret true
                    | None => ret false
                    end ;;
         if allowed then
           setProperty (VObj (object (scope_at s (default 0%nat sc')))) name (SV v) None
         else
           throwException (VObj (REFERENCE_ERROR s)) (VStr (name ++ " is not defined"))) s
    end.

(** Gets a value from the scope chain or from an object property. *)
Definition getValue (ref_base : option val) (ref_name : val) : M val :=
  h <- gets heap ;;
  match ref_base with
  | None => getValueFromScope (ToString h ref_name)
  | Some o => getProperty o (ToString h ref_name)
  end.

(** The node made by [new this.nodeConstructor({options:{}})] with its
    [type] set to ['CallExpression']. *)
Definition synthetic_call_node : Node :=
  mkNode "CallExpression" None None [] None [].

(** Create a call to a getter function. *)
Definition createGetter_ (func : val) (left : FrameValue) : M State :=
  gs <- gets getterStep_ ;;
  if negb gs then host_throw (Thrown "Error" (VStr "Unexpected call to createGetter"))
  else
    (* Clear the getter flag. *)
    modify (set_getterStep_ false) ;;
    let funcThis :=
      match left with
      | FRef (Some o) _ => FV o
      | FRef None _ => FScopeReference
      | _ => left
      end in
    top <- top_state ;;
    ret (with_arguments_ []
          (with_doneArgs_ true
            (with_func_ (FV func)
              (with_funcThis_ funcThis
                (with_doneCallee_ DC_true
                  (new_State synthetic_call_node (scope top))))))).

(** In non-strict mode [this] must be an object. *)
Definition boxThis_ (v : FrameValue) : M FrameValue :=
  match v with
  | FV VUndef | FV VNull =>
      (* [Undefined] and [null] are changed to the global object. *)
      g <- gets globalObject ;; ret (FV (VObj g))
  | FV (VObj l) => ret (FV (VObj l))
  | FV prim =>
      (* Primitives must be boxed. *)
      p <- liftH (fun s => getPrototype s prim) ;;
      box <- createObjectProto p ;;
      (* box.data = value *)
      @InterpreterObject_set_data unit ;;
      ret (FV box)
  | _ =>
      (* A host object that is not an InterpreterObject has no [proto]. *)
      box <- createObjectProto VUndef ;;
      @InterpreterObject_set_data unit ;;
      ret (FV box)
  end.

(** [typeof x] for what a frame slot holds. *)
Definition FrameValue_typeof (x : FrameValue) : string :=
  match x with
  | FV v => typeof v
  | _ => "object"
  end.

(** [String(x)] for what a frame slot holds. *)
Definition FrameValue_ToString (h : list InterpreterObject) (x : FrameValue) : string :=
  match x with
  | FV v => ToString h v
  | FRef (Some o) name => ToString h o ++ "," ++ ToString h name
  | FRef None name => "[object Object]," ++ ToString h name
  | FScopeReference => "[object Object]"
  end.


(** [stepCallExpression], the block [if (state.doneCallee_ === 1)]:
    determine value of the function.  [Some g] is the block's [return]. *)
Definition stepCallExpression_callee : M (option State) :=
  state <- top_state ;;
  update_top (with_doneCallee_ DC_2) ;;
  r <- match value state with
       | FRef base name =>
           f <- getValue base name ;;
           update_top (with_func_ (FV f)) ;;
           match base with
           | None =>
               (* (Globally or locally) named function.  Is it named 'eval'? *)
               update_top (with_directEval_ (strict_eq name (VStr "eval")))
           | Some o =>
               (* Method function, [this] is object. *)
               update_top (with_funcThis_ (FV o))
           end ;;
           gs <- gets getterStep_ ;;
           if gs then
             (* Call the getter function. *)
             update_top (with_doneCallee_ DC_1) ;;
             g <- createGetter_ f (value state) ;;
             ret (Some g)
           else ret None
       | func =>
           (* Already evaluated function: (function(){...})(); *)
           update_top (with_func_ func) ;; ret None
       end ;;
  match r with
  | Some g => ret (Some g)
  | None => update_top (fun st => with_n_ 0%nat (with_arguments_ [] st)) ;; ret None
  end.

(** The block [if (!state.doneArgs_)]: evaluate the arguments, then
    determine the value of [this].  [Some a] is the block's [return]. *)
Definition stepCallExpression_arguments : M (option State) :=
  state <- top_state ;;
  (if negb (Nat.eqb (n_ state) 0)
   then update_top (with_arguments_ (arguments_ state ++ [value state]))
   else ret tt) ;;
  match narguments (node state) !! n_ state with
  | Some a =>
      update_top (with_n_ (S (n_ state))) ;;
      ret (Some (new_State a (scope state)))
  | None =>
      (* Determine value of [this] in function. *)
      (if String.eqb (ntype (node state)) "NewExpression" then
         s <- gets id ;;
         match func_ state with
         | FV (VObj f) =>
             if illegalConstructor (obj_at s f) then
               (* Illegal: new escape(); *)
               throwException (VObj (TYPE_ERROR s))
                 (VStr (FrameValue_ToString (heap s) (func_ state) ++ " is not a constructor"))
             else
               (* Constructor, [this] is new object. *)
               this <- (if Nat.eqb f (ARRAY s) then createArray
                        else
                          proto <- liftH (fun s => host_get (properties (obj_at s f)) "prototype") ;;
                          match proto with
                          | VObj _ => createObjectProto proto
                          | _ =>
                              (* Non-object prototypes default to
                                 [Object.prototype]. *)
                              createObjectProto (VObj (OBJECT_PROTO s))
                          end) ;;
               update_top (fun st => with_isConstructor true (with_funcThis_ (FV this) st))
         | _ =>
             throwException (VObj (TYPE_ERROR s))
               (VStr (FrameValue_ToString (heap s) (func_ state) ++ " is not a constructor"))
         end
       else ret tt) ;;
      update_top (with_doneArgs_ true) ;;
      ret None
  end.

(** The block [if (!state.doneExec_) { ... }]. *)
Definition stepCallExpression_exec : M (option State) :=
  update_top (with_doneExec_ true) ;;
  state <- top_state ;;
  s <- gets id ;;
  match func_ state with
  | FV (VObj f) =>
      let func := obj_at s f in
      let box : M unit :=
        if strict (scope_at s (default 0%nat (scope state))) then ret tt
        else
          this <- boxThis_ (funcThis_ state) ;;
          update_top (with_funcThis_ this) in
      match func_node func, eval func, nativeFunc func, asyncFunc func with
      | Some _, _, _, _ => callInterpreted f
      | None, true, _, _ => callEval f
      | None, false, Some id, _ =>
          box ;;
          state <- top_state ;;
          v <- applyNative id (funcThis_ state) (arguments_ state) ;;
          update_top (with_value v) ;;
          ret None
      | None, false, None, Some id =>
          modify (set_paused_ true) ;;
          box ;;
          state <- top_state ;;
          applyAsync id (funcThis_ state) (arguments_ state) ;;
          ret None
      | None, false, None, None =>
          throwException (VObj (TYPE_ERROR s))
            (VStr (default "undefined" (class func) ++ " is not callable"))
      end
  | _ =>
      throwException (VObj (TYPE_ERROR s))
        (VStr (FrameValue_ToString (heap s) (func_ state) ++ " is not a function"))
  end.

(** The final [else] branch: execution complete, put the return value on the
    stack. *)
Definition stepCallExpression_complete : M (option State) :=
  state <- top_state ;;
  stack_pop ;;
  (if isConstructor state && negb (String.eqb (FrameValue_typeof (value state)) "object")
   then
     (* Normal case for a constructor is to use the [this] value. *)
     update_top (with_value (funcThis_ state))
   else
     (* Non-constructors or constructions explicitly returning objects use
        the return value. *)
     update_top (with_value (value state))) ;;
  ret None.

(** [stepCallExpression] (also [stepNewExpression]) *)
Definition stepCallExpression : M (option State) :=
  state <- top_state ;;
  match doneCallee_ state with
  | DC_undefined =>
      update_top (with_doneCallee_ DC_1) ;;
      (* Components needed to determine value of [this]. *)
      match ncallee (node state) with
      | Some callee => ret (Some (with_components true (new_State callee (scope state))))
      | None => host_throw (Thrown "TypeError"
                  (VStr "Cannot read properties of undefined (reading 'type')"))
      end
  | dc =>
      r <- match dc with
           | DC_1 => stepCallExpression_callee
           | _ => ret None
           end ;;
      match r with
      | Some g => ret (Some g)
      | None =>
          state <- top_state ;;
          r <- (if doneArgs_ state then ret None else stepCallExpression_arguments) ;;
          match r with
          | Some a => ret (Some a)
          | None =>
              state <- top_state ;;
              if doneExec_ state then stepCallExpression_complete
              else stepCallExpression_exec
          end
      end
  end.




End Evaluator.

(** ** Well-formed interpreters and interpreted exceptions *)

Section Wellformed.
Context `{Host}.

(** The number of objects on the prototype chain that starts at [l]. *)
Fixpoint chain_len (fuel : nat) (s : Interp) (l : loc) : option nat :=
  match fuel with
  | O => None
  | S fuel' =>
      match proto (obj_at s l) with
      | None => Some 1%nat
      | Some p => S <$> chain_len fuel' s p
      end
  end.

(** The object at [l] has a prototype chain that ends, and its [proto] is a
    live object. *)
Definition object_ok (s : Interp) (l : loc) : bool :=
  bool_decide (is_Some (chain_len (length (heap s)) s l)) &&
  match proto (obj_at s l) with
  | Some p => bool_decide (p < length (heap s))%nat
  | None => true
  end.

(** The constructor [c] is a live object whose [prototype] property holds a
    live object. *)
Definition constructor_ok (s : Interp) (c : loc) : bool :=
  bool_decide (c < length (heap s))%nat &&
  match host_get (properties (obj_at s c)) "prototype" with
  | HOk (VObj q) => bool_decide (q < length (heap s))%nat
  | _ => false
  end.

Definition builtin_constructors (s : Interp) : list loc :=
  [STRING s; NUMBER s; BOOLEAN s; ARRAY s; REGEXP s; DATE s; ERROR s;
   RANGE_ERROR s; REFERENCE_ERROR s; SYNTAX_ERROR s; TYPE_ERROR s].

(** An interpreter between two operations: no accessor call is pending, the
    top frame has a scope, prototype chains end, and the built-in
    constructors still have their prototype objects. *)
Definition wf_interp (s : Interp) : bool :=
  negb (getterStep_ s) && negb (setterStep_ s) &&
  match getScope s with HOk _ => true | _ => false end &&
  forallb (object_ok s) (seq 0 (length (heap s))) &&
  forallb (constructor_ok s) (builtin_constructors s).

(** The prototype graph as the constructor leaves it: [Object.prototype] is
    the root, [Array.prototype] and [Function.prototype] inherit from it,
    none of the three is the prototype object of [String], [Error], [RegExp]
    or [Date], [Array.prototype] is the [prototype] of [Array], and neither
    [Object.prototype] nor [Array.prototype] carries an accessor. *)
Definition pristine (s : Interp) : bool :=
  let OP := OBJECT_PROTO s in
  let AP := ARRAY_PROTO s in
  let FP := FUNCTION_PROTO s in
  let n := length (heap s) in
  wf_interp s &&
  bool_decide (OP < n)%nat && bool_decide (AP < n)%nat && bool_decide (FP < n)%nat &&
  bool_decide (proto (obj_at s OP) = None) &&
  bool_decide (proto (obj_at s AP) = Some OP) &&
  bool_decide (proto (obj_at s FP) = Some OP) &&
  bool_decide (getter (obj_at s OP) = []) && bool_decide (setter (obj_at s OP) = []) &&
  bool_decide (getter (obj_at s AP) = []) && bool_decide (setter (obj_at s AP) = []) &&
  forallb (fun c =>
             match host_get (properties (obj_at s c)) "prototype" with
             | HOk (VObj pc) =>
                 negb (Nat.eqb pc OP) && negb (Nat.eqb pc AP) && negb (Nat.eqb pc FP)
             | _ => false
             end)
          [STRING s; ERROR s; REGEXP s; DATE s] &&
  match host_get (properties (obj_at s (ARRAY s))) "prototype" with
  | HOk (VObj pc) => Nat.eqb pc AP
  | _ => false
  end.

(** The facts packed in [pristine]. *)
Record Pristine (s : Interp) : Prop := {
  pr_wf : wf_interp s = true;
  pr_OP : (OBJECT_PROTO s < length (heap s))%nat;
  pr_AP : (ARRAY_PROTO s < length (heap s))%nat;
  pr_FP : (FUNCTION_PROTO s < length (heap s))%nat;
  pr_proto_OP : proto (obj_at s (OBJECT_PROTO s)) = None;
  pr_proto_AP : proto (obj_at s (ARRAY_PROTO s)) = Some (OBJECT_PROTO s);
  pr_proto_FP : proto (obj_at s (FUNCTION_PROTO s)) = Some (OBJECT_PROTO s);
  pr_getter_OP : getter (obj_at s (OBJECT_PROTO s)) = [];
  pr_setter_OP : setter (obj_at s (OBJECT_PROTO s)) = [];
  pr_getter_AP : getter (obj_at s (ARRAY_PROTO s)) = [];
  pr_setter_AP : setter (obj_at s (ARRAY_PROTO s)) = [];
  pr_other c :
    c ∈ [STRING s; ERROR s; REGEXP s; DATE s] ->
    exists pc, host_get (properties (obj_at s c)) "prototype" = HOk (VObj pc) /\
               pc <> OBJECT_PROTO s /\ pc <> ARRAY_PROTO s /\ pc <> FUNCTION_PROTO s /\
               (pc < length (heap s))%nat;
  pr_ARRAY :
    host_get (properties (obj_at s (ARRAY s))) "prototype" = HOk (VObj (ARRAY_PROTO s)) }.

(** The array object that [createArray] allocates, once its length is [len]
    and it holds the elements [elems]. *)
Definition array_object (p : loc) (len : Z) (elems : PropMap) : InterpreterObject :=
  with_class "Array"
    (with_properties
       (("length", {| kind := Data (VNum (NInt len)) true; enumerable := false;
                      configurable := false |}) :: elems)
       (new_InterpreterObject (Some p))).




(** *** JSON values and their image in the heap *)

Definition finite (x : number) : bool :=
  match x with
  | NInt _ | NFrac _ _ => true
  | _ => false
  end.

(** The host values that JSON can express: null, booleans, finite numbers,
    strings, arrays without holes (a host array has fewer than 2^32 slots)
    and records (a host record has each key once) of such values. *)
Fixpoint json (v : hval) : bool :=
  match v with
  | HVal VNull | HVal (VBool _) | HVal (VStr _) => true
  | HVal (VNum x) => finite x
  | HArray es =>
      (Z.of_nat (length es) <? two32) &&
      forallb (fun e => match e with Some x => json x | None => false end) es
  | HObject ps =>
      bool_decide (NoDup (map fst ps)) && forallb (fun kv => json (snd kv)) ps
  | _ => false
  end.

(** The record object that [createObjectProto(OBJECT_PROTO)] allocates, once
    it holds [props]. *)
Definition record_object (p : loc) (props : PropMap) : InterpreterObject :=
  with_properties props (new_InterpreterObject (Some p)).

(** The objects that [nativeToPseudo] allocates for a JSON value when [n] is
    the next free location, in the order of allocation, with the value that
    stands for the whole: an array or record comes first, the objects of its
    members follow, member by member. *)
Definition layout_elements (f : nat -> hval -> val * list InterpreterObject)
  : nat -> nat -> list (option hval) -> PropMap * list InterpreterObject :=
  fix go (n i : nat) (es : list (option hval)) :=
    match es with
    | [] => ([], [])
    | None :: es' => go n (S i) es'
    | Some e :: es' =>
        let r := f n e in
        let rs := go (n + length (snd r))%nat (S i) es' in
        ((String_of_N (N.of_nat i), plain_slot (fst r)) :: fst rs,
         (snd r ++ snd rs)%list)
    end.

Definition layout_properties (f : nat -> hval -> val * list InterpreterObject)
  : nat -> list (string * hval) -> PropMap * list InterpreterObject :=
  fix go (n : nat) (ps : list (string * hval)) :=
    match ps with
    | [] => ([], [])
    | (key, x) :: ps' =>
        let r := f n x in
        let rs := go (n + length (snd r))%nat ps' in
        ((key, plain_slot (fst r)) :: fst rs, (snd r ++ snd rs)%list)
    end.

Fixpoint layout (s : Interp) (n : nat) (v : hval) : val * list InterpreterObject :=
  match v with
  | HVal p => (p, [])
  | HArray es =>
      let rs := layout_elements (layout s) (S n) 0%nat es in
      (VObj n, array_object (ARRAY_PROTO s) (Z.of_nat (length es)) (fst rs) :: snd rs)
  | HObject ps =>
      let rs := layout_properties (layout s) (S n) ps in
      (VObj n, record_object (OBJECT_PROTO s) (fst rs) :: snd rs)
  | _ => (VUndef, [])
  end.

(** Scopes are created after their parents and never re-linked; the
    variables of a scope live in a live object. *)
Definition scopes_ok (s : Interp) : bool :=
  forallb (fun c =>
             match parentScope (scope_at s c) with
             | Some p => bool_decide (p < c)%nat
             | None => true
             end)
          (seq 0 (length (scopes s))) &&
  match getScope s with
  | HOk sc => bool_decide (sc < length (scopes s))%nat
  | _ => false
  end.

(** No scope from [sc] up to the global scope has [name] as an own variable,
    and the global object does not have it either, own or inherited. *)
Inductive unbound (s : Interp) (name : string) : nat -> Prop :=
| unbound_global (g : nat) :
    g = globalScope s ->
    hasProperty s (VObj (object (scope_at s g))) name = HOk false ->
    unbound s name g
| unbound_local (c p : nat) :
    c <> globalScope s ->
    ain name (properties (obj_at s (object (scope_at s c)))) = false ->
    parentScope (scope_at s c) = Some p ->
    unbound s name p ->
    unbound s name c.


(** Some frame of the stack is a [Program] frame. *)
Definition has_program (stack : list State) : bool :=
  existsb (fun state => String.eqb (ntype (node state)) "Program") stack.

Inductive absent_from_chain (s : Interp) (name : string) : option loc -> Prop :=
| absent_end : absent_from_chain s name None
| absent_step (l : loc) :
    ain name (properties (obj_at s l)) = false ->
    absent_from_chain s name (proto (obj_at s l)) ->
    absent_from_chain s name (Some l).

(** The error object that [throwException(errorClass, message)] builds when
    [errorClass.prototype] is the object at [q]. *)
Definition error_object (s : Interp) (q : loc) (message : val) : InterpreterObject :=
  let fresh := new_InterpreterObject (Some q) in
  let isError :=
    match isa (set_heap (heap s ++ [fresh])%list s) (VObj (length (heap s))) (ERROR s) with
    | HOk b => b
    | _ => false
    end in
  let o := if isError then with_class "Error" fresh else fresh in
  with_properties
    [("message", {| kind := Data message true; enumerable := false;
                    configurable := true |})] o.

(** The last two statements of [throwException]:
    [this.unwind(Completion.THROW, error, undefined); throw STEP_ERROR;] *)
Definition raise_value {A} (error : val) : M A :=
  unwind THROW error None ;; throw_STEP_ERROR.

(** The call that ended in [r] threw an interpreted exception: an instance of
    the error class [cls] with the given message was created (as the next
    object of the heap) and thrown. *)
Definition raises {A} (cls : loc) (message : string) (s : Interp) (r : result A)
  : Prop :=
  exists q : loc,
    host_get (properties (obj_at s cls)) "prototype" = HOk (VObj q) /\
    r = raise_value (VObj (length (heap s)))
          (set_heap (heap s ++ [error_object s q (VStr message)])%list s).

End Wellformed.

(** ** A small interpreter

    The built-in objects that the embedded methods consult, laid out as the
    constructor leaves them (only the properties that matter here), with a
    [Program] frame on the stack.  Used for the concrete runs below. *)
Module Demo.

#[export] Instance host : Host := {|
  StrNumericLiteral := fun _ => NaN;
  FloatToString := fun _ => "1e+21";
  ObjectToString := fun h l =>
    "[object " ++ default "undefined" (class (default (new_InterpreterObject None) (h !! l))) ++ "]";
  ObjectToNumber := fun _ _ => NaN |}.

#[export] Instance externals : Externals := {|
  otherSteps := fun _ => None;
  callInterpreted := fun _ => ret None;
  callEval := fun _ => ret None;
  applyNative := fun _ _ _ => ret (FV VUndef);
  applyAsync := fun _ _ _ => ret tt |}.

Definition hidden (v : val) : Slot :=
  {| kind := Data v true; enumerable := false; configurable := true |}.

Definition plain_object (p : option loc) (ps : PropMap) : InterpreterObject :=
  with_properties ps (new_InterpreterObject p).

(** A constructor function whose [prototype] property is the object at [p]. *)
Definition constructor_object (p : loc) : InterpreterObject :=
  with_class "Function"
    (plain_object (Some 2%nat) [("prototype", hidden (VObj p))]).

Definition error_prototype (p : loc) (name : string) : InterpreterObject :=
  with_class "Error" (plain_object (Some p) [("name", hidden (VStr name))]).

Definition demo_heap : list InterpreterObject :=
  [ (* 0: the global object *)
    plain_object (Some 1%nat) [("self", plain_slot (VObj 0%nat))];
    (* 1: Object.prototype, 2: Function.prototype *)
    plain_object None [];
    with_illegalConstructor true (with_class "Function" (plain_object (Some 1%nat) []));
    (* 3: Object, 4: Function, 5: Array *)
    constructor_object 1%nat; constructor_object 2%nat; constructor_object 6%nat;
    (* 6: Array.prototype *)
    with_class "Array"
      (plain_object (Some 1%nat)
         [("length", {| kind := Data (VNum (NInt 0)) true; enumerable := false;
                        configurable := false |})]);
    (* 7: String, 8: String.prototype *)
    constructor_object 8%nat; plain_object (Some 1%nat) [];
    (* 9: Number, 10: Number.prototype *)
    constructor_object 10%nat; plain_object (Some 1%nat) [];
    (* 11: Boolean, 12: Boolean.prototype *)
    constructor_object 12%nat; plain_object (Some 1%nat) [];
    (* 13: Date, 14: Date.prototype *)
    constructor_object 14%nat; plain_object (Some 1%nat) [];
    (* 15: RegExp, 16: RegExp.prototype *)
    constructor_object 16%nat; plain_object (Some 1%nat) [];
    (* 17: Error, 18: Error.prototype *)
    constructor_object 18%nat;
    plain_object (Some 1%nat) [("message", hidden (VStr "")); ("name", hidden (VStr "Error"))];
    (* 19-26: RangeError, ReferenceError, SyntaxError, TypeError *)
    constructor_object 20%nat; error_prototype 18%nat "RangeError";
    constructor_object 22%nat; error_prototype 18%nat "ReferenceError";
    constructor_object 24%nat; error_prototype 18%nat "SyntaxError";
    constructor_object 26%nat; error_prototype 18%nat "TypeError";
    (* 27: the variables of a function scope *)
    plain_object None [("x", plain_slot (VNum (NInt 1)))];
    (* 28: an object just allocated by [new] *)
    plain_object (Some 1%nat) [];
    (* 29: the array [a] after [var a = [10]; a.length = 4;
           Object.defineProperty(a, '3', {value: 1, configurable: true,
                                          writable: true})] *)
    with_class "Array"
      (plain_object (Some 6%nat)
         [("length", {| kind := Data (VNum (NInt 4)) true; enumerable := false;
                        configurable := false |});
          ("0", plain_slot (VNum (NInt 10)));
          ("3", hidden (VNum (NInt 1)))]);
    (* 30: a native function created with [isConstructor] false *)
    with_nativeFunc 0%nat
      (with_illegalConstructor true
         (with_class "Function"
            (plain_object (Some 2%nat)
               [("length", {| kind := Data (VNum (NInt 1)) false; enumerable := false;
                              configurable := true |});
                ("name", {| kind := Data (VStr "escape") false; enumerable := false;
                            configurable := true |})]))) ].

Definition program (body : list Node) : Node :=
  mkNode "Program" (Some 10) None body None [].

Definition demo_scopes : list Scope :=
  [ mkScope None false 0%nat;          (* 0: the global scope *)
    mkScope (Some 0%nat) false 27%nat; (* 1: a function scope *)
    mkScope (Some 0%nat) true 27%nat   (* 2: a strict function scope *) ].

(** The interpreter with the given stack of frames. *)
Definition demo_with (stack : list State) : Interp :=
  {| heap := demo_heap; scopes := demo_scopes; stateStack := stack;
     globalScope := 0%nat; globalObject := 0%nat;
     paused_ := false; getterStep_ := false; setterStep_ := false;
     this_value := VUndef; functionCounter_ := 0%nat; POLYFILL_TIMEOUT := None;
     OBJECT_PROTO := 1%nat; FUNCTION_PROTO := 2%nat; ARRAY_PROTO := 6%nat;
     REGEXP_PROTO := 16%nat; DATE_PROTO := 14%nat;
     OBJECT := 3%nat; FUNCTION := 4%nat; ARRAY := 5%nat; STRING := 7%nat;
     NUMBER := 9%nat; BOOLEAN := 11%nat; DATE := 13%nat; REGEXP := 15%nat;
     ERROR := 17%nat; RANGE_ERROR := 19%nat; REFERENCE_ERROR := 21%nat;
     SYNTAX_ERROR := 23%nat; TYPE_ERROR := 25%nat |}.

(** A program that has not started, with no statements. *)
Definition demo : Interp :=
  demo_with [new_State (program []) (Some 0%nat)].


(** A statement inside a (non-strict) function. *)
Definition statement_frame : State :=
  new_State (mkNode "ExpressionStatement" (Some 5) None [] None []) (Some 1%nat).

(** The frame of [new F()] once the body of [F] has completed with [result];
    [this] is object 28. *)
Definition completed_new (result : val) : State :=
  with_value (FV result)
    (with_funcThis_ (FV (VObj 28%nat))
       (with_isConstructor true
          (with_doneExec_ true
             (with_doneArgs_ true
                (with_doneCallee_ DC_2
                   (new_State (mkNode "NewExpression" (Some 9) None [] None [])
                      (Some 1%nat))))))).

(** The host value [[1, {paid: null, items: ["x"]}, []]]. *)
Definition invoice : hval :=
  HArray [Some (HVal (VNum (NInt 1)));
          Some (HObject [("paid", HVal VNull);
                         ("items", HArray [Some (HVal (VStr "x"))])]);
          Some (HArray [])].

(** What the array at 29 becomes by [a.length = 0]. *)
Definition truncated_array : InterpreterObject :=
  with_class "Array"
    (plain_object (Some 6%nat)
       [("length", {| kind := Data (VNum (NInt 0)) true; enumerable := false;
                      configurable := false |});
        ("3", hidden (VNum (NInt 1)))]).


End Demo.

(** ** Statements shared by the proofs *)

(** [nativeToPseudo] allocates the objects of [layout], on top of whatever
    has been allocated before. *)
Abbreviation converts s x :=
  (json x = true ->
   forall extra,
     nativeToPseudo x (set_heap (heap s ++ extra) s) =
     Ok (fst (layout s (length (heap s) + length extra) x))
        (set_heap (heap s ++ extra ++
                     snd (layout s (length (heap s) + length extra) x)) s)).

(** [pseudoToNative] reads a value back from the objects of its layout,
    wherever they lie in the heap. *)
Abbreviation reads_back s x :=
  (json x = true ->
   forall pre post cycles fuel,
     lt (length (snd (layout s (length (heap s) + length pre) x))) fuel ->
     Forall (fun c => lt c (length (heap s) + length pre)) cycles ->
     pseudoToNative_ fuel (HVal (fst (layout s (length (heap s) + length pre) x))) cycles
       (set_heap (heap s ++ pre ++
                    snd (layout s (length (heap s) + length pre) x) ++ post) s) =
     Ok x
       (set_heap (heap s ++ pre ++
                    snd (layout s (length (heap s) + length pre) x) ++ post) s)).

(** Membership in an explicit list. *)
Ltac in_list := apply list_elem_of_In; cbn; tauto.

(** * Part II: properties *)

Local Open Scope list_scope.

(** ** Decimal strings *)

Lemma digits_to_N_String_of_N (n : N) : digits_to_N (String_of_N n) = Some n.
Proof.
  unfold digits_to_N, String_of_N.
  rewrite NilEmpty.usu. cbn [option_map].
  rewrite DecimalN.Unsigned.of_to.
  destruct (NilEmpty.string_of_uint (N.to_uint n)) eqn:E; [|reflexivity].
  destruct n as [|p]; [discriminate E|].
  exfalso. cbn in E. unfold Pos.to_uint in E.
  pose proof (DecimalPos.Unsigned.to_uint_nonnil p) as Hn.
  unfold Pos.to_uint in Hn.
  destruct (Decimal.rev (Pos.to_little_uint p)); [congruence| | | | | | | | | |]; discriminate E.
Qed.

(** ** Association lists *)

Lemma aget_aput_eq {A} (k : string) (x : A) (m : alist A) :
  aget k (aput k x m) = Some x.
Proof.
  induction m as [|[k' y] m IH]; cbn.
  - by rewrite String.eqb_refl.
  - destruct (String.eqb k' k) eqn:E; cbn; rewrite E; [done | apply IH].
Qed.

Lemma aget_aput_ne {A} (k k' : string) (x : A) (m : alist A) :
  k <> k' -> aget k' (aput k x m) = aget k' m.
Proof.
  intros Hne. induction m as [|[k0 y] m IH]; cbn.
  - destruct (String.eqb k k') eqn:E; [apply String.eqb_eq in E; done | done].
  - destruct (String.eqb k0 k) eqn:E; cbn.
    + apply String.eqb_eq in E. subst k0.
      destruct (String.eqb k k') eqn:E'; [apply String.eqb_eq in E'; done | done].
    + destruct (String.eqb k0 k'); [done | apply IH].
Qed.

Lemma aget_None_iff {A} (k : string) (m : alist A) :
  aget k m = None <-> k ∉ map fst m.
Proof.
  induction m as [|[k' y] m IH]; cbn.
  - split; [intros _; apply not_elem_of_nil | done].
  - destruct (String.eqb k' k) eqn:E.
    + apply String.eqb_eq in E. subst. split; [done | intros Hn; exfalso; apply Hn; left].
    + apply String.eqb_neq in E. rewrite IH, not_elem_of_cons. split; [intros ?; split; [congruence | done] | intros [_ ?]; done].
Qed.

Lemma aput_fresh {A} (k : string) (x : A) (m : alist A) :
  aget k m = None -> aput k x m = m ++ [(k, x)].
Proof.
  induction m as [|[k' y] m IH]; cbn; [done|].
  destruct (String.eqb k' k); [done|]. intros Hn. by rewrite IH.
Qed.

Lemma ain_true {A} (k : string) (m : alist A) :
  ain k m = true <-> is_Some (aget k m).
Proof.
  unfold ain. destruct (aget k m); split; intros Hx; eauto; try done;
    by destruct Hx.
Qed.

Lemma ain_false {A} (k : string) (m : alist A) :
  ain k m = false <-> aget k m = None.
Proof. unfold ain. by destruct (aget k m). Qed.

(** ** The heap *)

Lemma heap_set_heap h s : heap (set_heap h s) = h.
Proof. done. Qed.

Lemma set_heap_set_heap h h' s : set_heap h' (set_heap h s) = set_heap h' s.
Proof. done. Qed.

Lemma set_heap_id s : set_heap (heap s) s = s.
Proof. by destruct s. Qed.

Lemma obj_at_Some s l o : heap s !! l = Some o -> obj_at s l = o.
Proof. unfold obj_at. by intros ->. Qed.

Lemma obj_at_alloc_old h o s l :
  (l < length h)%nat -> obj_at (set_heap (h ++ [o]) s) l = obj_at (set_heap h s) l.
Proof. intros Hl. unfold obj_at. cbn. by rewrite lookup_app_l. Qed.

Lemma obj_at_alloc_new h o s :
  obj_at (set_heap (h ++ [o]) s) (length h) = o.
Proof.
  unfold obj_at. cbn. rewrite lookup_app_r; [|lia].
  by rewrite Nat.sub_diag.
Qed.

Lemma update_obj_alloc_new h o f s :
  update_obj (length h) f (set_heap (h ++ [o]) s) = set_heap (h ++ [f o]) s.
Proof.
  unfold update_obj. rewrite heap_set_heap, set_heap_set_heap.
  rewrite alter_app_r_alt by lia. by rewrite Nat.sub_diag.
Qed.

Lemma obj_at_update_eq s l f :
  (l < length (heap s))%nat -> obj_at (update_obj l f s) l = f (obj_at s l).
Proof.
  intros Hl. unfold obj_at, update_obj. cbn.
  rewrite list_lookup_alter_eq. destruct (lookup_lt_is_Some_2 _ _ Hl) as [o Ho].
  by rewrite Ho.
Qed.

Lemma obj_at_update_ne s l l' f :
  l <> l' -> obj_at (update_obj l f s) l' = obj_at s l'.
Proof.
  intros Hl. unfold obj_at, update_obj. cbn. by rewrite list_lookup_alter_ne.
Qed.

Lemma length_heap_update_obj s l f :
  length (heap (update_obj l f s)) = length (heap s).
Proof. unfold update_obj. cbn. apply length_alter. Qed.

Lemma alter_as_insert {A} (f : A -> A) (l : list A) (i : nat) (x : A) :
  l !! i = Some x -> alter f i l = <[i := f x]> l.
Proof.
  revert i. induction l as [|y l IH]; intros [|i]; cbn; try done.
  - by intros [= ->].
  - intros Hi. f_equal. by apply IH.
Qed.

Lemma update_obj_put s l f :
  (l < length (heap s))%nat -> update_obj l f s = put_obj l (f (obj_at s l)) s.
Proof.
  intros Hl. unfold update_obj, put_obj, obj_at.
  destruct (lookup_lt_is_Some_2 _ _ Hl) as [o Ho].
  by rewrite (alter_as_insert _ _ _ _ Ho), Ho.
Qed.

Lemma put_obj_put_obj s l o o' : put_obj l o' (put_obj l o s) = put_obj l o' s.
Proof.
  unfold put_obj. rewrite heap_set_heap, set_heap_set_heap.
  by rewrite list_insert_insert_eq.
Qed.

Lemma obj_at_put_eq s l o :
  (l < length (heap s))%nat -> obj_at (put_obj l o s) l = o.
Proof.
  intros Hl. unfold obj_at, put_obj. rewrite heap_set_heap.
  by rewrite list_lookup_insert_eq.
Qed.

Lemma obj_at_put_ne s l l' o : l <> l' -> obj_at (put_obj l o s) l' = obj_at s l'.
Proof.
  intros Hl. unfold obj_at, put_obj. rewrite heap_set_heap.
  by rewrite list_lookup_insert_ne.
Qed.

Lemma length_heap_put_obj s l o : length (heap (put_obj l o s)) = length (heap s).
Proof. unfold put_obj. rewrite heap_set_heap. apply length_insert. Qed.

Lemma put_obj_alloc_new h o o' s :
  put_obj (length h) o' (set_heap (h ++ [o]) s) = set_heap (h ++ [o']) s.
Proof.
  unfold put_obj. rewrite heap_set_heap, set_heap_set_heap.
  rewrite insert_app_r_alt by lia. by rewrite Nat.sub_diag.
Qed.

Lemma put_obj_same s l : (l < length (heap s))%nat -> put_obj l (obj_at s l) s = s.
Proof.
  intros Hl. unfold put_obj, obj_at.
  destruct (lookup_lt_is_Some_2 _ _ Hl) as [o Ho]. rewrite Ho. cbn.
  rewrite list_insert_id by done. apply set_heap_id.
Qed.


(** ** Prototype chains *)

Section ChainFacts.
Context `{Host}.

Lemma wf_getterStep s : wf_interp s = true -> getterStep_ s = false.
Proof. unfold wf_interp. rewrite !andb_true_iff, !negb_true_iff. tauto. Qed.

Lemma wf_setterStep s : wf_interp s = true -> setterStep_ s = false.
Proof. unfold wf_interp. rewrite !andb_true_iff, !negb_true_iff. tauto. Qed.

Lemma wf_getScope s : wf_interp s = true -> exists sc, getScope s = HOk sc.
Proof.
  unfold wf_interp. rewrite !andb_true_iff. intros [[[_ Hs] _] _].
  destruct (getScope s); eauto; done.
Qed.

Lemma wf_object_ok s l :
  wf_interp s = true -> (l < length (heap s))%nat -> object_ok s l = true.
Proof.
  unfold wf_interp. rewrite !andb_true_iff. intros [[_ Ho] _] Hl.
  rewrite forallb_forall in Ho. apply Ho. apply in_seq. lia.
Qed.

Lemma wf_constructor_ok s c :
  wf_interp s = true -> c ∈ builtin_constructors s -> constructor_ok s c = true.
Proof.
  unfold wf_interp. rewrite !andb_true_iff. intros [_ Hc] Hin.
  rewrite forallb_forall in Hc. apply Hc. by apply list_elem_of_In.
Qed.

Lemma constructor_ok_prototype s c :
  constructor_ok s c = true ->
  (c < length (heap s))%nat /\
  exists q, host_get (properties (obj_at s c)) "prototype" = HOk (VObj q) /\
            (q < length (heap s))%nat.
Proof.
  unfold constructor_ok. rewrite andb_true_iff, bool_decide_eq_true.
  intros [Hc Hq]. split; [done|].
  destruct (host_get _ _) as [[| | | | |q]| |]; try done.
  exists q. by apply bool_decide_eq_true in Hq.
Qed.

Lemma chain_len_le fuel s l k : chain_len fuel s l = Some k -> (k <= fuel)%nat.
Proof.
  revert l k. induction fuel as [|fuel IH]; intros l k; cbn; [done|].
  destruct (proto (obj_at s l)) as [p|].
  - destruct (chain_len fuel s p) as [k'|] eqn:E; cbn; [|done].
    intros [= <-]. apply IH in E. lia.
  - intros [= <-]. lia.
Qed.

Lemma isa_loop_total fuel0 s l k fuel pr :
  chain_len fuel0 s l = Some k -> (k < fuel)%nat ->
  exists b, isa_loop fuel s (VObj l) pr = HOk b.
Proof.
  revert l k fuel. induction fuel0 as [|fuel0 IH]; intros l k fuel; cbn; [done|].
  intros Hc Hk. destruct fuel as [|fuel]; [lia|]. cbn [isa_loop truthy dot_proto].
  destruct (strict_eq (VObj l) pr); [eauto|].
  destruct (proto (obj_at s l)) as [p|].
  - destruct (chain_len fuel0 s p) as [k'|] eqn:E; cbn in Hc; [|done].
    injection Hc as <-. eapply IH; [done | lia].
  - destruct fuel as [|fuel]; [injection Hc as <-; lia|]. cbn. eauto.
Qed.


Lemma wf_interp_spec s :
  wf_interp s = true <->
  getterStep_ s = false /\ setterStep_ s = false /\
  (exists sc, getScope s = HOk sc) /\
  (forall l, (l < length (heap s))%nat -> object_ok s l = true) /\
  (forall c, c ∈ builtin_constructors s -> constructor_ok s c = true).
Proof.
  split.
  - intros Hwf. repeat split.
    + by apply wf_getterStep.
    + by apply wf_setterStep.
    + by apply wf_getScope.
    + intros l. by apply wf_object_ok.
    + intros c. by apply wf_constructor_ok.
  - intros (Hg & Hs & [sc Hsc] & Ho & Hc). unfold wf_interp.
    rewrite Hg, Hs, Hsc. cbn [negb andb]. apply andb_true_iff. split.
    + apply forallb_forall. intros l Hl. apply Ho. apply in_seq in Hl. lia.
    + apply forallb_forall. intros c Hin. apply Hc. by apply list_elem_of_In.
Qed.

Lemma chain_len_S fuel s l :
  chain_len (S fuel) s l =
  match proto (obj_at s l) with
  | None => Some 1%nat
  | Some p => S <$> chain_len fuel s p
  end.
Proof. done. Qed.

Lemma chain_len_mono fuel s l k :
  chain_len fuel s l = Some k -> chain_len (S fuel) s l = Some k.
Proof.
  revert l k. induction fuel as [|fuel IH]; intros l k Hk; [done|].
  rewrite chain_len_S in Hk. rewrite chain_len_S.
  destruct (proto (obj_at s l)) as [p|]; [|done].
  destruct (chain_len fuel s p) as [k'|] eqn:E; [|done].
  by rewrite (IH _ _ E).
Qed.

Lemma object_ok_spec s l :
  object_ok s l = true <->
  (exists k, chain_len (length (heap s)) s l = Some k) /\
  (forall p, proto (obj_at s l) = Some p -> (p < length (heap s))%nat).
Proof.
  unfold object_ok. rewrite andb_true_iff, bool_decide_eq_true.
  split; intros [Hc Hp]; (split; [done|]).
  - intros p Hpp. rewrite Hpp in Hp. by apply bool_decide_eq_true in Hp.
  - destruct (proto (obj_at s l)); [|done]. apply bool_decide_eq_true. eauto.
Qed.

(** Allocation leaves the chains of the existing objects alone. *)
Lemma chain_len_alloc fuel s o l :
  (forall l, (l < length (heap s))%nat -> object_ok s l = true) ->
  (l < length (heap s))%nat ->
  chain_len fuel (set_heap (heap s ++ [o]) s) l = chain_len fuel s l.
Proof.
  intros Hok. revert l. induction fuel as [|fuel IH]; intros l Hl; [done|].
  rewrite !chain_len_S. rewrite obj_at_alloc_old, set_heap_id by done.
  destruct (proto (obj_at s l)) as [p|] eqn:Hp; [|done].
  rewrite IH; [done|]. apply Hok, object_ok_spec in Hl. by apply Hl.
Qed.

Lemma getScope_set_heap h s : getScope (set_heap h s) = getScope s.
Proof. done. Qed.

Lemma wf_alloc s o :
  wf_interp s = true ->
  (forall q, proto o = Some q -> (q < length (heap s))%nat) ->
  wf_interp (set_heap (heap s ++ [o]) s) = true.
Proof.
  rewrite !wf_interp_spec. intros (Hg & Hs & Hsc & Ho & Hc) Hq.
  repeat split; try done.
  - intros l. rewrite heap_set_heap, length_app. cbn [length]. intros Hl.
    apply object_ok_spec. rewrite heap_set_heap, length_app. cbn [length].
    destruct (decide (l = length (heap s))) as [->|Hne].
    + rewrite obj_at_alloc_new. split.
      * rewrite Nat.add_1_r, chain_len_S, obj_at_alloc_new.
        destruct (proto o) as [q|] eqn:Hpo; [|eauto].
        specialize (Hq q eq_refl). rewrite chain_len_alloc by done.
        destruct (proj1 (object_ok_spec s q) (Ho q Hq)) as [[k Hk] _].
        rewrite Hk. eauto.
      * intros p Hp. apply Hq in Hp. lia.
    + assert (Hl' : (l < length (heap s))%nat) by lia.
      destruct (proj1 (object_ok_spec s l) (Ho l Hl')) as [[k Hk] Hp].
      rewrite obj_at_alloc_old, set_heap_id by done. split.
      * exists k. rewrite Nat.add_1_r. apply chain_len_mono.
        by rewrite chain_len_alloc.
      * intros p Hpp. apply Hp in Hpp. lia.
  - intros c Hin. specialize (Hc c Hin).
    apply constructor_ok_prototype in Hc as (Hcl & q & Hq' & Hql).
    unfold constructor_ok. rewrite heap_set_heap, length_app. cbn [length].
    rewrite obj_at_alloc_old, set_heap_id by done. rewrite Hq'.
    apply andb_true_iff. split; apply bool_decide_eq_true; lia.
Qed.

Lemma isa_object_total s l c :
  wf_interp s = true -> (l < length (heap s))%nat ->
  c ∈ builtin_constructors s ->
  exists b, isa s (VObj l) c = HOk b.
Proof.
  intros Hwf Hl Hc. unfold isa.
  destruct (constructor_ok_prototype s c (wf_constructor_ok s c Hwf Hc))
    as (_ & q & -> & _).
  cbn [hbind]. destruct (strict_eq (VObj l) (VObj q)); [eauto|].
  cbn [getPrototype hbind].
  destruct (proj1 (object_ok_spec s l) (wf_object_ok s l Hwf Hl)) as [[k Hk] Hp].
  destruct (length (heap s)) as [|n] eqn:Hn; [lia|]. rewrite chain_len_S in Hk.
  destruct (proto (obj_at s l)) as [p|].
  - destruct (chain_len n s p) as [k'|] eqn:E; [|done].
    eapply isa_loop_total; [done|]. apply chain_len_le in E.
    unfold chain_fuel. lia.
  - unfold chain_fuel. rewrite Hn. cbn. eauto.
Qed.

End ChainFacts.

(** ** Array indices *)

Section IndexFacts.
Context `{Host}.

Lemma legalArrayIndex_inv x i :
  legalArrayIndex x = NInt i ->
  (0 <= i < 4294967295) /\ x = String_of_N (Z.to_N i).
Proof.
  unfold legalArrayIndex.
  set (n := ToUint32 (StringToNumber x)).
  destruct (String.eqb _ x) eqn:E; [|done].
  destruct (n =? 4294967295) eqn:E'; [done|]. cbn. intros [= <-].
  apply String.eqb_eq in E. apply Z.eqb_neq in E'.
  assert (0 <= n < two32).
  { unfold n, ToUint32. destruct (StringToNumber x); try (unfold two32; lia);
      apply Z.mod_pos_bound; done. }
  unfold two32 in *. split; [lia | done].
Qed.

Lemma legalArrayIndex_cases x :
  legalArrayIndex x = NaN \/ exists i, legalArrayIndex x = NInt i.
Proof. unfold legalArrayIndex. destruct (_ && _); eauto. Qed.

Lemma legalArrayIndex_non_digits x :
  digits_to_N x = None -> legalArrayIndex x = NaN.
Proof.
  intros Hd. destruct (legalArrayIndex_cases x) as [|[i Hi]]; [done|].
  apply legalArrayIndex_inv in Hi as [_ ->].
  by rewrite digits_to_N_String_of_N in Hd.
Qed.

Lemma legalArrayIndex_String_of_N (n : N) :
  (n < 4294967295)%N -> legalArrayIndex (String_of_N n) = NInt (Z.of_N n).
Proof.
  intros Hn. unfold legalArrayIndex, StringToNumber.
  rewrite digits_to_N_String_of_N. cbn [ToUint32].
  rewrite Z.mod_small by (unfold two32; lia).
  rewrite N2Z.id, String.eqb_refl. cbn [andb].
  destruct (Z.of_N n =? 4294967295) eqn:E; [apply Z.eqb_eq in E; lia | done].
Qed.

End IndexFacts.

(** ** Interpreted exceptions *)

Section ThrowFacts.
Context `{Host}.

Lemma raise_value_not_Ok {A} (e : val) s (a : A) s' : raise_value e s <> Ok a s'.
Proof.
  unfold raise_value, bind, throw_STEP_ERROR.
  by destruct (unwind THROW e None s).
Qed.

Lemma raises_not_Ok {A} cls msg s (r : result A) a s' :
  raises cls msg s r -> r <> Ok a s'.
Proof. intros (q & _ & ->). apply raise_value_not_Ok. Qed.

Lemma drop_accessors_none name o :
  getter o = [] -> setter o = [] ->
  with_setter (aremove name (setter o)) (with_getter (aremove name (getter o)) o) = o.
Proof. destruct o. cbn. by intros -> ->. Qed.

(** Defining a new data property through one of the flag descriptors. *)
Lemma setProperty_define_data throwE s l sc name v c e w b :
  setterStep_ s = false ->
  getScope s = HOk sc ->
  (l < length (heap s))%nat ->
  isa s (VObj l) (STRING s) = HOk b ->
  b && (String.eqb name "length" || string_index_in_range s (VObj l) name) = false ->
  class (obj_at s l) <> Some "Array" ->
  preventExtensions (obj_at s l) = false ->
  getter (obj_at s l) = [] -> setter (obj_at s l) = [] ->
  aget name (properties (obj_at s l)) = None ->
  setProperty_ throwE (VObj l) name (SV v) (Some (flags_descriptor c e w)) s =
  Ok VUndef
    (put_obj l (with_properties
                  (properties (obj_at s l) ++ [(name, mkSlot (Data v w) e c)])
                  (obj_at s l)) s).
Proof.
  intros Hss Hsc Hl Hisa Hstr Hcls Hpe Hg Hst Hnew.
  assert (Hci : class_is (obj_at s l) "Array" = false).
  { unfold class_is. destruct (class (obj_at s l)) as [c'|]; [|done].
    apply String.eqb_neq. congruence. }
  unfold setProperty_. rewrite Hss.
  cbn [invalid_descriptor flags_descriptor d_get d_set d_value d_writable present orb andb].
  unfold current_strict, setProperty_object_, bind, liftH, gets, ret, modify.
  rewrite Hsc, Hisa, Hstr, Hci, Hpe. cbn [andb].
  unfold setProperty_define_, bind, liftH, gets, ret, modify, desc_truthy.
  cbn [flags_descriptor d_get d_set d_value d_writable d_configurable d_enumerable present orb andb negb].
  rewrite (update_obj_put s l) by done.
  rewrite !drop_accessors_none by (by rewrite ?drop_accessors_none).
  rewrite put_obj_same by done.
  unfold host_defineProperty.
  cbn [hd_get hd_set hd_value hd_writable hd_configurable hd_enumerable present orb andb
       option_map truthy default from_option id].
  rewrite Hnew. cbn [orb andb].
  rewrite aput_fresh by done.
  rewrite (update_obj_put s l) by done.
  rewrite update_obj_put by (by rewrite length_heap_put_obj).
  rewrite obj_at_put_eq by done. by rewrite put_obj_put_obj.
Qed.


Lemma throwException_raises {A} s cls msg :
  wf_interp s = true -> cls ∈ builtin_constructors s ->
  raises (A:=A) cls msg s (throwException (VObj cls) (VStr msg) s).
Proof.
  intros Hwf Hcls.
  destruct (constructor_ok_prototype s cls (wf_constructor_ok s cls Hwf Hcls))
    as (Hcl & q & Hq & Hql).
  exists q. split; [done|].
  unfold throwException. cbn [throwException_n]. unfold throwException_body.
  unfold bind at 1. unfold createObject. rewrite Hq.
  unfold createObjectProto.
  set (fresh := new_InterpreterObject (Some q)).
  set (s1 := set_heap (heap s ++ [fresh]) s).
  assert (Hwf1 : wf_interp s1 = true).
  { apply wf_alloc; [done|]. by intros ? [= <-]. }
  destruct (isa_object_total s1 (length (heap s)) (ERROR s1) Hwf1) as [isError HisError].
  { unfold s1. rewrite heap_set_heap, length_app. cbn. lia. }
  { in_list. }
  unfold error_object. fold fresh. fold s1.
  change (ERROR s) with (ERROR s1). rewrite HisError.
  set (o2 := if isError then with_class "Error" fresh else fresh).
  set (s2 := set_heap (heap s ++ [o2]) s).
  assert (Hwf2 : wf_interp s2 = true).
  { apply wf_alloc; [done|]. unfold o2. destruct isError; by intros ? [= <-]. }
  assert (Hlen2 : (length (heap s) < length (heap s2))%nat).
  { unfold s2. rewrite heap_set_heap, length_app. cbn. lia. }
  destruct (isa_object_total s2 (length (heap s)) (STRING s2) Hwf2 Hlen2) as [isString HisString].
  { in_list. }
  destruct (wf_getScope s2 Hwf2) as [sc Hsc].
  assert (Ho2 : obj_at s2 (length (heap s)) = o2) by apply obj_at_alloc_new.
  assert (Hstep : forall throwE,
    setProperty_ throwE (VObj (length (heap s))) "message" (SV (VStr msg))
      (Some NONENUMERABLE_DESCRIPTOR) s2 =
    Ok VUndef (set_heap (heap s ++ [with_properties
      [("message", {| kind := Data (VStr msg) true; enumerable := false;
                      configurable := true |})] o2]) s)).
  { intros throwE. unfold NONENUMERABLE_DESCRIPTOR.
    erewrite setProperty_define_data; try done.
    - rewrite Ho2. unfold o2, s2. destruct isError; cbn [properties with_class fresh new_InterpreterObject app];
        by rewrite put_obj_alloc_new.
    - by apply wf_setterStep.
    - unfold string_index_in_range.
      rewrite legalArrayIndex_non_digits by done. cbn. by rewrite andb_false_r.
    - rewrite Ho2. unfold o2. by destruct isError.
    - rewrite Ho2. unfold o2. by destruct isError.
    - rewrite Ho2. unfold o2. by destruct isError.
    - rewrite Ho2. unfold o2. by destruct isError.
    - rewrite Ho2. unfold o2. by destruct isError. }
  assert (Hs2 : update_obj (length (heap s)) (with_class "Error") s1 =
                set_heap (heap s ++ [with_class "Error" fresh]) s).
  { apply update_obj_alloc_new. }
  subst o2 s2 s1.
  destruct isError; cbv beta iota; rewrite ?Hs2; unfold bind at 1;
    rewrite Hstep; reflexivity.
Qed.

End ThrowFacts.
(** ** Reading a property (claim C8) *)

Section GetFacts.
Context `{Host}.

Lemma get_loop_absent fuel0 s l k name fuel :
  absent_from_chain s name (Some l) ->
  chain_len fuel0 s l = Some k -> (k <= fuel)%nat ->
  get_loop fuel (VObj l) name s = Ok VUndef s.
Proof.
  revert l k fuel. induction fuel0 as [|fuel0 IH]; intros l k fuel Habs Hc Hk; [done|].
  rewrite chain_len_S in Hc. inversion Habs as [|l' Hown Hrest]; subst.
  destruct fuel as [|fuel].
  { destruct (proto (obj_at s l)); [|injection Hc as <-; lia].
    destruct (chain_len fuel0 s n); [injection Hc as <-; lia | done]. }
  cbn [get_loop own_in]. rewrite Hown. cbn [getPrototype].
  destruct (proto (obj_at s l)) as [p|]; [|done].
  cbn [truthy]. destruct (chain_len fuel0 s p) as [k'|] eqn:E; [|done].
  injection Hc as <-. eapply IH; [done | done | lia].
Qed.

(** C8.  [getProperty(obj, name)] throws an interpreted TypeError with message
    "Cannot read property '<name>' of <obj>" when [obj] is null or undefined;
    and on an interpreted object whose prototype chain nowhere has [name] as
    an own property (the string length/index special case not applying) it
    returns undefined, leaving the interpreter as it was. *)
Theorem getProperty_nullish_and_missing (s : Interp) (name : string) (l : loc)
  (Hwf : wf_interp s = true)
  (Hl : (l < length (heap s))%nat)
  (Habsent : absent_from_chain s name (Some l))
  (Hspecial : getProperty_string_case s (VObj l) name = HOk None) :
  raises (TYPE_ERROR s) ("Cannot read property '" +:+ name +:+ "' of null") s
    (getProperty VNull name s) /\
  raises (TYPE_ERROR s) ("Cannot read property '" +:+ name +:+ "' of undefined") s
    (getProperty VUndef name s) /\
  getProperty (VObj l) name s = Ok VUndef s.
Proof.
  pose proof (wf_getterStep s Hwf) as Hg.
  assert (Hte : TYPE_ERROR s ∈ builtin_constructors s) by in_list.
  unfold getProperty, getProperty_. rewrite Hg. repeat split.
  - by apply throwException_raises.
  - by apply throwException_raises.
  - rewrite Hspecial.
    destruct (proj1 (object_ok_spec s l) (wf_object_ok s l Hwf Hl)) as [[k Hk] _].
    eapply get_loop_absent; [done | done |].
    apply chain_len_le in Hk. unfold chain_fuel. lia.
Qed.

End GetFacts.

(** ** Plain assignment to a property *)

Section SetFacts.
Context `{Host}.

(** A plain [setProperty(obj, name, value)] on an object that is not an
    array, when no accessor stands in the way. *)
Lemma setProperty_plain throwE s l sc name v b d m' :
  setterStep_ s = false ->
  getScope s = HOk sc ->
  (l < length (heap s))%nat ->
  isa s (VObj l) (STRING s) = HOk b ->
  b && (String.eqb name "length" || string_index_in_range s (VObj l) name) = false ->
  class_is (obj_at s l) "Array" = false ->
  preventExtensions (obj_at s l) && negb (ain name (properties (obj_at s l))) = false ->
  find_defObj (chain_fuel s) s l l name = Some d ->
  aget name (setter (obj_at s d)) = None ->
  aget name (getter (obj_at s d)) = None ->
  host_set (properties (obj_at s l)) name v = HOk m' ->
  setProperty_ throwE (VObj l) name (SV v) None s =
  Ok VUndef (put_obj l (with_properties m' (obj_at s l)) s).
Proof.
  intros Hss Hsc Hl Hisa Hstr Hci Hpe Hdef Hset Hget Hhost.
  unfold setProperty_. rewrite Hss. cbn [invalid_descriptor].
  unfold current_strict, setProperty_object_, bind, liftH, gets, ret, modify.
  rewrite Hsc, Hisa, Hstr, Hci, Hpe.
  unfold setProperty_assign_. rewrite Hdef, Hset, Hget. cbn [default from_option truthy id].
  rewrite Hhost. by rewrite update_obj_put.
Qed.

Lemma has_loop_false_find_defObj fuel s l name :
  has_loop fuel s (VObj l) name = HOk false ->
  forall obj, find_defObj fuel s obj l name = Some obj.
Proof.
  revert l. induction fuel as [|fuel IH]; intros l; [done|].
  cbn [has_loop find_defObj own_in getPrototype hbind].
  destruct (ain name (properties (obj_at s l))); [done|].
  destruct (proto (obj_at s l)) as [p|]; [|done].
  cbn [truthy]. intros Hh obj. by apply IH.
Qed.

End SetFacts.

(** ** Variables (claims C5 and C6) *)

Section ScopeFacts.
Context `{Host}.

Lemma scopes_ok_parent s c p :
  scopes_ok s = true -> parentScope (scope_at s c) = Some p -> (p < c)%nat.
Proof.
  unfold scopes_ok. rewrite andb_true_iff. intros [Hall _] Hp.
  destruct (decide (c < length (scopes s))%nat) as [Hc|Hc].
  - rewrite forallb_forall in Hall. specialize (Hall c).
    rewrite Hp in Hall. eapply bool_decide_eq_true_1, Hall, in_seq. lia.
  - unfold scope_at in Hp. rewrite lookup_ge_None_2 in Hp by lia. done.
Qed.

Lemma scopes_ok_top s sc :
  scopes_ok s = true -> getScope s = HOk sc -> (sc < length (scopes s))%nat.
Proof.
  unfold scopes_ok. rewrite andb_true_iff. intros [_ Htop] Hsc.
  rewrite Hsc in Htop. by apply bool_decide_eq_true in Htop.
Qed.

Lemma scope_walk_unbound s name c fuel :
  scopes_ok s = true -> unbound s name c -> (c < fuel)%nat ->
  scope_walk fuel s (Some c) name = Some (ReachedEnd (Some (globalScope s))).
Proof.
  intros Hok Hun. revert fuel.
  induction Hun as [g -> _|c p Hne Hown Hp _ IH]; intros fuel Hf;
    (destruct fuel as [|fuel]; [lia|]); cbn [scope_walk].
  - by rewrite Nat.eqb_refl.
  - apply Nat.eqb_neq in Hne. rewrite Hne, Hown, Hp. apply IH.
    apply (scopes_ok_parent s c p Hok) in Hp. lia.
Qed.

Lemma unbound_global_hasProperty s name c :
  unbound s name c ->
  hasProperty s (VObj (object (scope_at s (globalScope s)))) name = HOk false.
Proof. induction 1 as [g -> Hh|]; done. Qed.

Lemma getScope_top s st rest sc :
  stateStack s = st :: rest -> scope st = Some sc -> getScope s = HOk sc.
Proof. unfold getScope. by intros -> ->. Qed.



Lemma get_loop_heap fuel obj name s s' :
  final_state (get_loop fuel obj name s) = Some s' -> heap s' = heap s.
Proof.
  revert obj. induction fuel as [|fuel IH]; intros obj; [done|].
  cbn [get_loop]. destruct (own_in s obj name).
  - destruct obj as [| | | | |l]; try by intros [= <-].
    destruct (truthy _); [by intros [= <-]|].
    unfold liftH. destruct (host_get _ _); cbn; by intros [= <-].
  - destruct (getPrototype s obj) as [p| |]; try by intros [= <-].
    destruct (truthy p); [apply IH | by intros [= <-]].
Qed.

Lemma getProperty_object_heap throwE l name s s' :
  final_state (getProperty_ throwE (VObj l) name s) = Some s' -> heap s' = heap s.
Proof.
  unfold getProperty_. destruct (getterStep_ s); [by intros [= <-]|].
  destruct (getProperty_string_case s (VObj l) name) as [[v|]| |];
    try by intros [= <-].
  apply get_loop_heap.
Qed.

Lemma unwind_throw_heap l s s' :
  final_state (unwind THROW (VObj l) None s) = Some s' -> heap s' = heap s.
Proof.
  unfold unwind, unwind_.
  destruct (unwind_loop THROW (VObj l) None (stateStack s)) as [outcome stack'].
  destruct outcome; try by intros [= <-].
  unfold bind at 1, liftH at 1.
  destruct (isa _ _ _) as [[|]| |]; try by intros [= <-].
  unfold bind at 1.
  destruct (getProperty_ _ (VObj l) "name" _) as [nm s1|s1|e s1|] eqn:E1;
    try (intros [= <-]; by apply (f_equal final_state), getProperty_object_heap in E1).
  apply (f_equal final_state), getProperty_object_heap in E1.
  unfold bind at 1.
  destruct (getProperty_ _ (VObj l) "message" _) as [msg s2|s2|e s2|] eqn:E2;
    try (intros [= <-]; apply (f_equal final_state), getProperty_object_heap in E2;
         cbn in *; congruence).
  apply (f_equal final_state), getProperty_object_heap in E2.
  unfold bind, gets, host_throw. destruct msg; intros [= <-]; cbn in *; congruence.
Qed.

Lemma raise_value_heap {A} l s s' :
  final_state (raise_value (A:=A) (VObj l) s) = Some s' -> heap s' = heap s.
Proof.
  unfold raise_value, bind, throw_STEP_ERROR.
  destruct (unwind THROW (VObj l) None s) as [[] s1|s1|e s1|] eqn:E;
    try done; intros [= <-]; by apply (f_equal final_state), unwind_throw_heap in E.
Qed.

(** An interpreted exception adds the error object to the heap and changes
    no other object. *)
Lemma raises_heap {A} cls msg s (r : result A) s' :
  raises cls msg s r -> final_state r = Some s' ->
  forall l, (l < length (heap s))%nat -> obj_at s' l = obj_at s l.
Proof.
  intros (q & _ & ->) Hf l Hl. apply raise_value_heap in Hf.
  unfold obj_at. rewrite Hf, heap_set_heap. by rewrite lookup_app_l.
Qed.

Lemma hasProperty_false_inv s l name :
  hasProperty s (VObj l) name = HOk false ->
  exists b, isa s (VObj l) (STRING s) = HOk b /\
    b && (String.eqb name "length" || string_index_in_range s (VObj l) name) = false /\
    has_loop (chain_fuel s) s (VObj l) name = HOk false.
Proof.
  unfold hasProperty. destruct (isa s (VObj l) (STRING s)) as [b| |]; try done.
  cbn [hbind]. intros Hh. exists b. split; [done|].
  destruct (String.eqb name "length"), b; cbn in *; try done;
    destruct (string_index_in_range s (VObj l) name); try done.
Qed.

(** C6.  Assigning to a name that no scope on the chain defines: in strict
    mode the assignment raises an interpreted ReferenceError and the global
    object still has no such property once the call is over; in non-strict
    mode the binding is created on the global object (an ordinary, extensible
    object holding no accessor for the name). *)
Theorem setValueToScope_unbound (s : Interp) (st : State) (rest : list State)
  (sc : nat) (name : string) (v : val)
  (Hwf : wf_interp s = true)
  (Hscopes : scopes_ok s = true)
  (Hstack : stateStack s = st :: rest)
  (Hscope : scope st = Some sc)
  (Hunbound : unbound s name sc)
  (Hlive : (object (scope_at s (globalScope s)) < length (heap s))%nat) :
  let g := object (scope_at s (globalScope s)) in
  if strict (scope_at s sc) then
    raises (REFERENCE_ERROR s) (name +:+ " is not defined") s
      (setValueToScope name v s) /\
    (forall s', final_state (setValueToScope name v s) = Some s' ->
                aget name (properties (obj_at s' g)) = None)
  else
    class (obj_at s g) = None ->
    preventExtensions (obj_at s g) = false ->
    aget name (getter (obj_at s g)) = None ->
    aget name (setter (obj_at s g)) = None ->
    setValueToScope name v s =
    Ok VUndef
      (put_obj g (with_properties (properties (obj_at s g) ++ [(name, plain_slot v)])
                    (obj_at s g)) s).
Proof.
  intros g. subst g.
  pose proof (getScope_top s st rest sc Hstack Hscope) as Hsc.
  pose proof (scopes_ok_top s sc Hscopes Hsc) as Hsclive.
  assert (Hwalk := scope_walk_unbound s name sc (scope_fuel s) Hscopes Hunbound).
  assert (Hhas := unbound_global_hasProperty s name sc Hunbound).
  destruct (hasProperty_false_inv _ _ _ Hhas) as (b & Hisa & Hstr & Hloop).
  assert (Hown : aget name (properties (obj_at s (object (scope_at s (globalScope s))))) = None).
  { unfold chain_fuel in Hloop. rewrite Nat.add_comm in Hloop.
    cbn [Nat.add has_loop own_in] in Hloop. apply ain_false.
    by destruct (ain name (properties (obj_at s _))). }
  assert (Hrun : setValueToScope name v s =
                 if strict (scope_at s sc)
                 then throwException (VObj (REFERENCE_ERROR s))
                        (VStr (name +:+ " is not defined")) s
                 else setProperty (VObj (object (scope_at s (globalScope s)))) name (SV v) None s).
  { unfold setValueToScope, bind at 1, liftH at 1. rewrite Hsc.
    rewrite Hwalk by (unfold scope_fuel; lia).
    destruct (strict (scope_at s sc)); unfold bind, liftH, ret; [by rewrite Hhas | done]. }
  rewrite Hrun. destruct (strict (scope_at s sc)).
  - assert (Hr : raises (A:=val) (REFERENCE_ERROR s) (name +:+ " is not defined") s
                   (throwException (VObj (REFERENCE_ERROR s))
                      (VStr (name +:+ " is not defined")) s)).
    { apply throwException_raises; [done | in_list]. }
    split; [done|]. intros s' Hf.
    by rewrite (raises_heap _ _ _ _ _ Hr Hf _ Hlive).
  - intros Hclass Hpe Hget Hset. unfold setProperty.
    erewrite setProperty_plain; try done.
    + by apply wf_setterStep.
    + unfold class_is. by rewrite Hclass.
    + by rewrite Hpe.
    + by apply has_loop_false_find_defObj.
    + unfold host_set. rewrite Hown. by rewrite aput_fresh.
Qed.

End ScopeFacts.
(** ** Objects added to a pristine interpreter *)

Section PristineFacts.
Context `{Host}.

Lemma obj_at_ext_old s extra l :
  (l < length (heap s))%nat -> obj_at (set_heap (heap s ++ extra) s) l = obj_at s l.
Proof. intros Hl. unfold obj_at. rewrite heap_set_heap. by rewrite lookup_app_l. Qed.

Lemma wf_ext s extra :
  wf_interp s = true ->
  Forall (fun o => forall q, proto o = Some q -> (q < length (heap s))%nat) extra ->
  wf_interp (set_heap (heap s ++ extra) s) = true.
Proof.
  intros Hwf. induction extra as [|o extra IH] using rev_ind; intros Hall.
  - by rewrite app_nil_r, set_heap_id.
  - apply Forall_app in Hall as [Hall Ho]. apply Forall_inv in Ho.
    specialize (IH Hall). rewrite app_assoc.
    change (set_heap ((heap s ++ extra) ++ [o]) s)
      with (set_heap (heap (set_heap (heap s ++ extra) s) ++ [o])
              (set_heap (heap s ++ extra) s)).
    apply wf_alloc; [done|]. intros q Hq. rewrite heap_set_heap, length_app.
    specialize (Ho q Hq). lia.
Qed.

Lemma pristine_Pristine s : pristine s = true -> Pristine s.
Proof.
  unfold pristine. rewrite !andb_true_iff, !bool_decide_eq_true.
  intros [[[[[[[[[[[[Hwf ?] ?] ?] ?] ?] ?] ?] ?] ?] ?] Hother] HA].
  split; try done.
  - intros c Hc. rewrite forallb_forall in Hother.
    assert (Hcb : c ∈ builtin_constructors s).
    { apply list_elem_of_In. apply list_elem_of_In in Hc. cbn in Hc |- *. tauto. }
    apply list_elem_of_In, Hother in Hc.
    destruct (constructor_ok_prototype s c (wf_constructor_ok s c Hwf Hcb))
      as (_ & q & Hq & Hql).
    rewrite Hq in Hc |- *. exists q. split; [done|].
    rewrite !andb_true_iff, !negb_true_iff, !Nat.eqb_neq in Hc. tauto.
  - destruct (host_get _ _) as [[| | | | |pc]| |]; try done.
    by apply Nat.eqb_eq in HA as ->.
Qed.

Lemma Pristine_ext s extra :
  Pristine s ->
  Forall (fun o => forall q, proto o = Some q -> (q < length (heap s))%nat) extra ->
  Pristine (set_heap (heap s ++ extra) s).
Proof.
  intros [] Hall.
  assert (Hlen : forall l, (l < length (heap s))%nat ->
                           (l < length (heap (set_heap (heap s ++ extra) s)))%nat).
  { intros l Hl. rewrite heap_set_heap, length_app. lia. }
  split; try (cbn [OBJECT_PROTO ARRAY_PROTO FUNCTION_PROTO set_heap];
              rewrite ?obj_at_ext_old by done; auto; fail).
  - by apply wf_ext.
  - intros c Hc.
    change (c ∈ [STRING s; ERROR s; REGEXP s; DATE s]) in Hc.
    destruct (pr_other0 c Hc) as (pc & Hpc & ? & ? & ? & ?).
    assert (Hcb : c ∈ builtin_constructors s).
    { apply list_elem_of_In. apply list_elem_of_In in Hc. cbn in Hc |- *. tauto. }
    destruct (constructor_ok_prototype s c (wf_constructor_ok s c pr_wf0 Hcb)) as (Hcl & _).
    exists pc. rewrite obj_at_ext_old by done. repeat split; auto.
  - assert (Hcb : ARRAY s ∈ builtin_constructors s) by in_list.
    destruct (constructor_ok_prototype s _ (wf_constructor_ok s _ pr_wf0 Hcb)) as (Hcl & _).
    change (ARRAY (set_heap (heap s ++ extra) s)) with (ARRAY s).
    by rewrite obj_at_ext_old.
Qed.

End PristineFacts.

(** ** The host bridge on values of the wrong kind *)

Section BridgeFacts.
Context `{Host}.

(** C9.  [nativeToPseudo] throws the host [Error] 'Object is already pseudo'
    on an [InterpreterObject]; [pseudoToNative] throws the host [Error]
    'Object is not pseudo' on every host object or function that is not an
    [InterpreterObject]; both return a primitive (null and undefined
    included) unchanged.  The interpreter is left as it was. *)
Theorem bridge_rejects_wrong_world (s : Interp) (x : hval) :
  match x with
  | HVal (VObj l) =>
      nativeToPseudo x s = HostError (Thrown "Error" (VStr "Object is already pseudo")) s
  | HVal p =>
      nativeToPseudo x s = Ok p s /\ pseudoToNative x s = Ok (HVal p) s
  | _ =>
      pseudoToNative x s = HostError (Thrown "Error" (VStr "Object is not pseudo")) s
  end.
Proof. destruct x as [[]| | | | | |]; cbn; auto. Qed.

(** No host regular expression or date crosses the bridge: the conversion
    stops at the assignment to [data], which [InterpreterObject] declares
    with a getter only. *)
Lemma nativeToPseudo_RegExp_throws s source flags lastIndex :
  match nativeToPseudo (HRegExp source flags lastIndex) s with
  | Ok _ _ => False
  | _ => True
  end.
Proof.
  cbn [nativeToPseudo]. unfold bind at 1. unfold gets at 1.
  unfold bind at 1. destruct (createObjectProto _ s); [|done..].
  unfold populateRegExp, InterpreterObject_set_data, bind, host_throw. done.
Qed.

Lemma nativeToPseudo_Date_throws s time :
  match nativeToPseudo (HDate time) s with
  | Ok _ _ => False
  | _ => True
  end.
Proof.
  cbn [nativeToPseudo]. unfold bind at 1. unfold gets at 1.
  unfold bind at 1. destruct (createObjectProto _ s); [|done..].
  unfold InterpreterObject_set_data, bind, host_throw. done.
Qed.

(** Nor does an interpreter object that inherits from [RegExp.prototype]
    cross it the other way: its [data] is [null]. *)
Lemma pseudoToNative_RegExp_throws s l :
  isa s (VObj l) (REGEXP s) = HOk true ->
  pseudoToNative (HVal (VObj l)) s =
  HostError (Thrown "TypeError"
               (VStr "Cannot read properties of null (reading 'source')")) s.
Proof.
  intros Hisa. unfold pseudoToNative. cbn [pseudoToNative_].
  unfold bind, liftH. by rewrite Hisa.
Qed.

End BridgeFacts.

(** ** Completion of a call *)

Section CallFacts.
Context `{Host} `{Externals}.

(** The value that a completed call leaves in the frame of its caller. *)
Lemma stepCallExpression_complete_value s state caller rest :
  stateStack s = state :: caller :: rest ->
  stepCallExpression_complete s =
  Ok None
    (set_stateStack
       (with_value
          (if isConstructor state &&
              negb (String.eqb (FrameValue_typeof (value state)) "object")
           then funcThis_ state else value state) caller :: rest) s).
Proof.
  intros Hst. unfold stepCallExpression_complete, bind, top_state, stack_pop, modify.
  rewrite Hst. cbn [tail].
  destruct (isConstructor state && _); unfold update_top, ret; cbn; rewrite Hst; by destruct s.
Qed.

End CallFacts.

(** ** Steps and termination *)

Section StepFacts.
Context `{Host} `{Externals}.



(** [unwind] stops at the [Program] frame and leaves it on the stack. *)
Lemma unwind_loop_keeps_program type v label stack :
  has_program stack = true -> snd (unwind_loop type v label stack) <> [].
Proof.
  induction stack as [|state rest IH]; [done|]. cbn [has_program existsb unwind_loop].
  destruct (String.eqb (ntype (node state)) "TryStatement") eqn:Htry; [done|].
  destruct (String.eqb (ntype (node state)) "CallExpression" ||
            String.eqb (ntype (node state)) "NewExpression") eqn:Hcall.
  - assert (String.eqb (ntype (node state)) "Program" = false) as ->.
    { apply orb_true_iff in Hcall as [Hc|Hc]; apply String.eqb_eq in Hc;
        rewrite Hc; reflexivity. }
    cbn [orb]. intros Hrest. specialize (IH Hrest).
    destruct type; try done.
  - destruct (String.eqb (ntype (node state)) "Program") eqn:Hprog; [done|].
    cbn [orb]. intros Hrest. specialize (IH Hrest).
    destruct type; try done.
    + destruct label as [lb|].
      * destruct (has_label state lb); [|done]. cbn [snd]. by destruct rest.
      * destruct (isLoop state || isSwitch state); [|done]. cbn [snd]. by destruct rest.
    + destruct label as [lb|].
      * by destruct (has_label state lb).
      * by destruct (isLoop state).
Qed.


End StepFacts.

(** ** Objects allocated on top of a pristine heap *)

Section FreshFacts.
Context `{Host}.

Lemma obj_at_heap_ext s s' extra l :
  heap s' = heap s ++ extra -> (l < length (heap s))%nat -> obj_at s' l = obj_at s l.
Proof. intros Hh Hl. unfold obj_at. rewrite Hh. by rewrite lookup_app_l. Qed.

Lemma strict_eq_obj_ne (l l' : loc) : l <> l' -> strict_eq (VObj l) (VObj l') = false.
Proof. intros Hne. unfold strict_eq. apply bool_decide_eq_false_2. congruence. Qed.

Lemma strict_eq_obj_refl (l : loc) : strict_eq (VObj l) (VObj l) = true.
Proof. unfold strict_eq. by apply bool_decide_eq_true_2. Qed.

Lemma Pristine_OP_ne_AP s : Pristine s -> OBJECT_PROTO s <> ARRAY_PROTO s.
Proof. intros HP E. pose proof (pr_proto_AP s HP) as Hp. rewrite <- E, (pr_proto_OP s HP) in Hp. done. Qed.

Lemma Pristine_constructor_live s c :
  Pristine s -> c ∈ builtin_constructors s -> (c < length (heap s))%nat.
Proof.
  intros HP Hc.
  by destruct (constructor_ok_prototype s c (wf_constructor_ok s c (pr_wf s HP) Hc)).
Qed.

(** An object allocated on top of the heap whose prototype is one of the
    three root prototypes is no [String], [Error], [RegExp] or [Date]. *)
Lemma isa_fresh s s' extra l q c :
  Pristine s -> heap s' = heap s ++ extra ->
  (length (heap s) <= l)%nat -> proto (obj_at s' l) = Some q ->
  q = OBJECT_PROTO s \/ q = ARRAY_PROTO s \/ q = FUNCTION_PROTO s ->
  c ∈ [STRING s; ERROR s; REGEXP s; DATE s] ->
  isa s' (VObj l) c = HOk false.
Proof.
  intros HP Hh Hl Hq Hqs Hc.
  destruct (pr_other s HP c Hc) as (pc & Hpc & Hne1 & Hne2 & Hne3 & Hpcl).
  assert (Hcl : (c < length (heap s))%nat).
  { apply Pristine_constructor_live; [done|]. apply list_elem_of_In.
    apply list_elem_of_In in Hc. cbn in Hc |- *. tauto. }
  unfold isa. rewrite (obj_at_heap_ext s s' extra c Hh Hcl), Hpc. cbn [hbind].
  rewrite strict_eq_obj_ne by lia. cbn [getPrototype hbind]. rewrite Hq.
  unfold chain_fuel.
  replace (length (heap s') + 5)%nat with (S (S (S (length (heap s') + 2)))) by lia.
  pose proof (pr_OP s HP). pose proof (pr_AP s HP). pose proof (pr_FP s HP).
  destruct Hqs as [->|[->| ->]]; cbn [isa_loop truthy dot_proto];
    rewrite ?(obj_at_heap_ext s s' extra _ Hh) by done;
    rewrite ?(pr_proto_OP s HP), ?(pr_proto_AP s HP), ?(pr_proto_FP s HP);
    rewrite ?strict_eq_obj_ne by congruence;
    cbn [isa_loop truthy dot_proto];
    rewrite ?(obj_at_heap_ext s s' extra _ Hh) by done;
    rewrite ?(pr_proto_OP s HP); rewrite ?strict_eq_obj_ne by congruence; done.
Qed.

(** It is an [Array] exactly when its prototype is [Array.prototype]. *)
Lemma isa_fresh_ARRAY s s' extra l q :
  Pristine s -> heap s' = heap s ++ extra ->
  (length (heap s) <= l)%nat -> proto (obj_at s' l) = Some q ->
  q = OBJECT_PROTO s \/ q = ARRAY_PROTO s ->
  isa s' (VObj l) (ARRAY s) = HOk (bool_decide (q = ARRAY_PROTO s)).
Proof.
  intros HP Hh Hl Hq Hqs.
  assert (Hcl : (ARRAY s < length (heap s))%nat).
  { apply Pristine_constructor_live; [done|]. in_list. }
  pose proof (pr_OP s HP). pose proof (pr_AP s HP).
  pose proof (Pristine_OP_ne_AP s HP) as Hne.
  unfold isa. rewrite (obj_at_heap_ext s s' extra _ Hh Hcl), (pr_ARRAY s HP). cbn [hbind].
  rewrite strict_eq_obj_ne by lia. cbn [getPrototype hbind]. rewrite Hq.
  unfold chain_fuel.
  replace (length (heap s') + 5)%nat with (S (S (S (length (heap s') + 2)))) by lia.
  destruct Hqs as [->| ->]; cbn [isa_loop truthy dot_proto].
  - rewrite strict_eq_obj_ne by done.
    rewrite (obj_at_heap_ext s s' extra _ Hh) by done. rewrite (pr_proto_OP s HP).
    cbn. by rewrite bool_decide_eq_false_2.
  - rewrite strict_eq_obj_refl. by rewrite bool_decide_eq_true_2.
Qed.

Lemma obj_at_mid s (pre post : list InterpreterObject) o :
  obj_at (set_heap (heap s ++ pre ++ o :: post) s) (length (heap s) + length pre) = o.
Proof.
  unfold obj_at. rewrite heap_set_heap, app_assoc.
  rewrite lookup_app_r by (rewrite length_app; lia).
  rewrite length_app. by replace (_ - _)%nat with 0%nat by lia.
Qed.

Lemma put_obj_mid s (pre post : list InterpreterObject) o o' :
  put_obj (length (heap s) + length pre) o' (set_heap (heap s ++ pre ++ o :: post) s) =
  set_heap (heap s ++ pre ++ o' :: post) s.
Proof.
  unfold put_obj. rewrite heap_set_heap, set_heap_set_heap. f_equal.
  rewrite !app_assoc. rewrite <- length_app.
  rewrite insert_app_r_alt by lia. by replace (_ - _)%nat with 0%nat by lia.
Qed.

Lemma createObjectProto_fresh s extra q :
  Pristine s ->
  q = OBJECT_PROTO s \/ q = ARRAY_PROTO s \/ q = FUNCTION_PROTO s ->
  createObjectProto (VObj q) (set_heap (heap s ++ extra) s) =
  Ok (VObj (length (heap s) + length extra))
     (set_heap (heap s ++ extra ++ [new_InterpreterObject (Some q)]) s).
Proof.
  intros HP Hq. unfold createObjectProto.
  rewrite heap_set_heap, set_heap_set_heap, length_app, <- app_assoc.
  change (ERROR (set_heap ?h s)) with (ERROR s).
  rewrite (isa_fresh s _ (extra ++ [new_InterpreterObject (Some q)]) _ q); try done.
  - lia.
  - by rewrite obj_at_mid.
  - in_list.
Qed.

(** Defining a data property that a fresh object does not have yet. *)
Lemma setProperty_define_fresh s pre post o q name v c e w :
  Pristine s -> proto o = Some q ->
  q = OBJECT_PROTO s \/ q = ARRAY_PROTO s \/ q = FUNCTION_PROTO s ->
  class o <> Some "Array" -> preventExtensions o = false ->
  getter o = [] -> setter o = [] -> aget name (properties o) = None ->
  setProperty (VObj (length (heap s) + length pre)) name (SV v)
    (Some (flags_descriptor c e w)) (set_heap (heap s ++ pre ++ o :: post) s) =
  Ok VUndef
    (set_heap (heap s ++ pre ++
                 with_properties (properties o ++ [(name, mkSlot (Data v w) e c)]) o :: post) s).
Proof.
  intros HP Hq Hqs Hcls Hpe Hg Hst Hnew.
  destruct (wf_getScope s (pr_wf s HP)) as [sc Hsc].
  unfold setProperty.
  rewrite (setProperty_define_data _ _ _ sc _ _ _ _ _ false); rewrite ?obj_at_mid; try done.
  - by rewrite put_obj_mid.
  - apply (wf_setterStep s (pr_wf s HP)).
  - rewrite heap_set_heap, !length_app. cbn [length]. lia.
  - change (STRING (set_heap ?h s)) with (STRING s).
    apply (isa_fresh s _ (pre ++ o :: post) _ q); try done.
    + lia.
    + by rewrite obj_at_mid.
    + in_list.
Qed.

Lemma update_obj_mid s (pre post : list InterpreterObject) o f :
  update_obj (length (heap s) + length pre) f (set_heap (heap s ++ pre ++ o :: post) s) =
  set_heap (heap s ++ pre ++ f o :: post) s.
Proof.
  rewrite update_obj_put, obj_at_mid, put_obj_mid; [done|].
  rewrite heap_set_heap, !length_app. cbn [length]. lia.
Qed.

(** The object that [createArray] allocates, once it holds [elems] and its
    length is [len]. *)
Lemma createArray_fresh s extra :
  Pristine s ->
  createArray (set_heap (heap s ++ extra) s) =
  Ok (VObj (length (heap s) + length extra))
     (set_heap (heap s ++ extra ++ [array_object (ARRAY_PROTO s) 0 []]) s).
Proof.
  intros HP. unfold createArray. unfold bind at 1. unfold gets at 1.
  unfold bind at 1. change (ARRAY_PROTO (set_heap ?h s)) with (ARRAY_PROTO s).
  rewrite createObjectProto_fresh by auto.
  unfold bind at 1.
  rewrite (setProperty_define_fresh s extra [] _ (ARRAY_PROTO s)); auto; try done.
  unfold bind, modify, ret. by rewrite update_obj_mid.
Qed.


End FreshFacts.

(** ** Functions that are no constructors (claim C10) *)

Section ConstructorFacts.
Context `{Host} `{Externals}.









End ConstructorFacts.

(** ** The length of arrays (claim C4) *)

Section ArrayFacts.
Context `{Host}.

(** Writing a length that is no legal array length throws the interpreted
    [RangeError]. *)
Lemma setProperty_illegal_length s l v len sc :
  wf_interp s = true ->
  isa s (VObj l) (STRING s) = HOk false ->
  class_is (obj_at s l) "Array" = true ->
  host_get (properties (obj_at s l)) "length" = HOk len ->
  getScope s = HOk sc ->
  legalArrayLength (heap s) v = NaN ->
  raises (RANGE_ERROR s) "Invalid array length" s
    (setProperty (VObj l) "length" (SV v) None s).
Proof.
  intros Hwf Hisa Hcls Hlen Hsc Hnan.
  unfold setProperty, setProperty_. rewrite (wf_setterStep s Hwf).
  cbn [invalid_descriptor].
  unfold current_strict, setProperty_object_, bind, liftH, gets, ret.
  rewrite Hsc, Hisa. cbn [andb]. rewrite Hcls.
  unfold setProperty_array_, bind, liftH, gets. rewrite Hlen.
  cbn [String.eqb Ascii.eqb Bool.eqb legalArrayLength_sv]. rewrite Hnan.
  cbn [isNaN]. unfold throwE_at.
  destruct (throwException_raises (A:=option setval) s (RANGE_ERROR s) "Invalid array length" Hwf)
    as (q & Hq & Hr); [in_list|].
  exists q. split; [done|]. rewrite Hr.
  unfold raise_value, bind, throw_STEP_ERROR.
  by destruct (unwind THROW _ None _) as [[] ?| | |].
Qed.

End ArrayFacts.

(** ** The round trip of JSON values (claim C1) *)

Section AssignFacts.
Context `{Host}.

Lemma aget_app {A} (k : string) (m1 m2 : alist A) :
  aget k (m1 ++ m2) = match aget k m1 with Some x => Some x | None => aget k m2 end.
Proof.
  induction m1 as [|[k' y] m1 IH]; cbn; [done|]. by destruct (String.eqb k' k).
Qed.

Lemma String_of_N_inj (m n : N) : String_of_N m = String_of_N n -> m = n.
Proof.
  intros E. apply (f_equal digits_to_N) in E.
  rewrite !digits_to_N_String_of_N in E. congruence.
Qed.

Lemma String_of_N_not_length (n : N) : String.eqb (String_of_N n) "length" = false.
Proof.
  apply String.eqb_neq. intros E. apply (f_equal digits_to_N) in E.
  rewrite digits_to_N_String_of_N in E. done.
Qed.

Lemma Math_max_NInt (a b : Z) : Math_max (NInt a) (NInt b) = NInt (Z.max a b).
Proof.
  unfold Math_max, number_cmp. rewrite !Z.mul_1_r.
  destruct (Z.compare_spec a b); f_equal; lia.
Qed.

(** Assignment to a property of an object, once the block for arrays has
    run and has led from [s] to [s1]. *)
Lemma setProperty_assign throwE s s1 l sc name v d m' :
  setterStep_ s = false ->
  getScope s = HOk sc ->
  isa s (VObj l) (STRING s) = HOk false ->
  (if class_is (obj_at s l) "Array"
   then setProperty_array_ throwE l name (SV v) None
   else ret (Some (SV v))) s = Ok (Some (SV v)) s1 ->
  preventExtensions (obj_at s1 l) = false ->
  find_defObj (chain_fuel s1) s1 l l name = Some d ->
  aget name (setter (obj_at s1 d)) = None ->
  aget name (getter (obj_at s1 d)) = None ->
  host_set (properties (obj_at s1 l)) name v = HOk m' ->
  (l < length (heap s1))%nat ->
  setProperty_ throwE (VObj l) name (SV v) None s =
  Ok VUndef (put_obj l (with_properties m' (obj_at s1 l)) s1).
Proof.
  intros Hss Hsc Hisa Hblock Hpe Hdef Hset Hget Hhost Hl.
  unfold setProperty_. rewrite Hss. cbn [invalid_descriptor].
  unfold current_strict, setProperty_object_. unfold bind at 1. unfold bind at 1.
  unfold liftH at 1. rewrite Hsc. unfold gets at 1. unfold bind at 1.
  unfold liftH at 1. rewrite Hisa. unfold bind at 1. unfold gets at 1.
  cbn [andb]. unfold bind at 1. unfold gets at 1. unfold bind at 1.
  rewrite Hblock. unfold bind at 1. unfold gets at 1. rewrite Hpe. cbn [andb].
  unfold setProperty_assign_. rewrite Hdef, Hset, Hget. cbn [default from_option truthy id].
  rewrite Hhost. by rewrite update_obj_put.
Qed.

(** The block for arrays on an index: the length is lifted to
    [max(length, i + 1)]. *)
Lemma setProperty_array_index throwE s l name v i len m1 :
  String.eqb name "length" = false ->
  legalArrayIndex name = NInt i ->
  host_get (properties (obj_at s l)) "length" = HOk (VNum (NInt len)) ->
  host_set (properties (obj_at s l)) "length" (VNum (NInt (Z.max len (i + 1)))) = HOk m1 ->
  setProperty_array_ throwE l name (SV v) None s =
  Ok (Some (SV v)) (update_obj l (with_properties m1) s).
Proof.
  intros Hname Hi Hlen Hset.
  unfold setProperty_array_. unfold bind at 1. unfold liftH at 1. rewrite Hlen, Hname, Hi.
  cbn [isNaN negb ToNumber number_succ]. by rewrite Math_max_NInt, Hset.
Qed.

End AssignFacts.

Section FreshAssign.
Context `{Host}.

(** Where an assignment to a fresh array or record lands: on the object
    itself or on a root prototype, none of which has an accessor. *)
Lemma find_defObj_fresh s pre post o q name :
  Pristine s -> proto o = Some q ->
  q = OBJECT_PROTO s \/ q = ARRAY_PROTO s ->
  getter o = [] -> setter o = [] ->
  exists d,
    find_defObj (chain_fuel (set_heap (heap s ++ pre ++ o :: post) s))
      (set_heap (heap s ++ pre ++ o :: post) s)
      (length (heap s) + length pre) (length (heap s) + length pre) name = Some d /\
    aget name (setter (obj_at (set_heap (heap s ++ pre ++ o :: post) s) d)) = None /\
    aget name (getter (obj_at (set_heap (heap s ++ pre ++ o :: post) s) d)) = None.
Proof.
  intros HP Hq Hqs Hg Hst.
  set (s' := set_heap (heap s ++ pre ++ o :: post) s).
  assert (Hh : heap s' = heap s ++ pre ++ o :: post) by done.
  pose proof (pr_OP s HP) as HOP. pose proof (pr_AP s HP) as HAP.
  assert (Hself : aget name (setter (obj_at s' (length (heap s) + length pre))) = None /\
                  aget name (getter (obj_at s' (length (heap s) + length pre))) = None).
  { unfold s'. rewrite obj_at_mid, Hg, Hst. done. }
  assert (HO : aget name (setter (obj_at s' (OBJECT_PROTO s))) = None /\
               aget name (getter (obj_at s' (OBJECT_PROTO s))) = None).
  { rewrite (obj_at_heap_ext s s' _ _ Hh HOP).
    by rewrite (pr_getter_OP s HP), (pr_setter_OP s HP). }
  assert (HA : aget name (setter (obj_at s' (ARRAY_PROTO s))) = None /\
               aget name (getter (obj_at s' (ARRAY_PROTO s))) = None).
  { rewrite (obj_at_heap_ext s s' _ _ Hh HAP).
    by rewrite (pr_getter_AP s HP), (pr_setter_AP s HP). }
  unfold chain_fuel.
  replace (length (heap s') + 5)%nat with (S (S (S (length (heap s') + 2)))) by lia.
  cbn [find_defObj].
  destruct (ain name (properties (obj_at s' (length (heap s) + length pre)))); [eauto|].
  unfold s' at 1. rewrite obj_at_mid, Hq. fold s'.
  destruct Hqs as [->| ->].
  - destruct (ain name (properties (obj_at s' (OBJECT_PROTO s)))); [eauto|].
    rewrite (obj_at_heap_ext s s' _ _ Hh HOP), (pr_proto_OP s HP). eauto.
  - destruct (ain name (properties (obj_at s' (ARRAY_PROTO s)))); [eauto|].
    rewrite (obj_at_heap_ext s s' _ _ Hh HAP), (pr_proto_AP s HP).
    destruct (ain name (properties (obj_at s' (OBJECT_PROTO s)))); [eauto|].
    rewrite (obj_at_heap_ext s s' _ _ Hh HOP), (pr_proto_OP s HP). eauto.
Qed.

(** [a[i] = v] on a fresh array that has no index [i] yet. *)
Lemma setProperty_index_fresh s pre post len elems (i : nat) v :
  Pristine s -> (Z.of_nat i < 4294967295) ->
  aget (String_of_N (N.of_nat i)) elems = None ->
  setProperty (VObj (length (heap s) + length pre)) (String_of_N (N.of_nat i)) (SV v) None
    (set_heap (heap s ++ pre ++ array_object (ARRAY_PROTO s) len elems :: post) s) =
  Ok VUndef
    (set_heap (heap s ++ pre ++
                 array_object (ARRAY_PROTO s) (Z.max len (Z.of_nat i + 1))
                   (elems ++ [(String_of_N (N.of_nat i), plain_slot v)]) :: post) s).
Proof.
  intros HP Hi Hnew. set (name := String_of_N (N.of_nat i)) in *.
  set (arr := array_object (ARRAY_PROTO s) len elems).
  set (arr1 := array_object (ARRAY_PROTO s) (Z.max len (Z.of_nat i + 1)) elems).
  destruct (wf_getScope s (pr_wf s HP)) as [sc Hsc].
  destruct (find_defObj_fresh s pre post arr1 (ARRAY_PROTO s) name HP)
    as (d & Hd & Hset & Hget); auto.
  unfold setProperty.
  rewrite (setProperty_assign _ _
             (set_heap (heap s ++ pre ++ arr1 :: post) s) _ sc _ _ d
             (properties arr1 ++ [(name, plain_slot v)])); rewrite ?obj_at_mid; try done.
  - by rewrite put_obj_mid.
  - apply (wf_setterStep s (pr_wf s HP)).
  - change (STRING (set_heap ?h s)) with (STRING s).
    apply (isa_fresh s _ (pre ++ arr :: post) _ (ARRAY_PROTO s)); rewrite ?obj_at_mid;
      auto; [lia | in_list].
  - cbn [class_is arr array_object with_class class String.eqb Ascii.eqb Bool.eqb].
    rewrite (setProperty_array_index _ _ _ name v (Z.of_nat i) len (properties arr1));
      rewrite ?obj_at_mid; try done.
    + by rewrite update_obj_mid.
    + apply String_of_N_not_length.
    + unfold name. rewrite legalArrayIndex_String_of_N by lia. by rewrite nat_N_Z.
  - assert (Hnl : String.eqb "length" name = false).
    { rewrite String.eqb_sym. apply String_of_N_not_length. }
    unfold host_set. cbn [arr1 array_object with_class with_properties properties aget].
    rewrite Hnl, Hnew. rewrite aput_fresh; [done|]. cbn [aget]. by rewrite Hnl.
  - rewrite heap_set_heap, !length_app. cbn [length]. lia.
Qed.

(** [o[key] = v] on a fresh record that has no [key] yet. *)
Lemma setProperty_record_fresh s pre post props key v :
  Pristine s -> aget key props = None ->
  setProperty (VObj (length (heap s) + length pre)) key (SV v) None
    (set_heap (heap s ++ pre ++ record_object (OBJECT_PROTO s) props :: post) s) =
  Ok VUndef
    (set_heap (heap s ++ pre ++
                 record_object (OBJECT_PROTO s) (props ++ [(key, plain_slot v)]) :: post) s).
Proof.
  intros HP Hnew. set (o := record_object (OBJECT_PROTO s) props).
  destruct (wf_getScope s (pr_wf s HP)) as [sc Hsc].
  destruct (find_defObj_fresh s pre post o (OBJECT_PROTO s) key HP)
    as (d & Hd & Hset & Hget); auto.
  unfold setProperty.
  rewrite (setProperty_assign _ _
             (set_heap (heap s ++ pre ++ o :: post) s) _ sc _ _ d
             (props ++ [(key, plain_slot v)])); rewrite ?obj_at_mid; try done.
  - by rewrite put_obj_mid.
  - apply (wf_setterStep s (pr_wf s HP)).
  - change (STRING (set_heap ?h s)) with (STRING s).
    apply (isa_fresh s _ (pre ++ o :: post) _ (OBJECT_PROTO s)); rewrite ?obj_at_mid;
      auto; [lia | in_list].
  - unfold host_set. cbn [o record_object with_properties properties].
    rewrite Hnew. by rewrite aput_fresh.
  - rewrite heap_set_heap, !length_app. cbn [length]. lia.
Qed.

Lemma getProperty_string_case_object s obj name :
  isa s obj (STRING s) = HOk false -> getProperty_string_case s obj name = HOk None.
Proof.
  intros Hisa. unfold getProperty_string_case. rewrite Hisa. cbn [hbind andb].
  destruct (String.eqb name "length"); [done|].
  destruct name as [|c name]; [done|]. by destruct (_ <? 64).
Qed.

(** An own data property of a fresh array or record is found and read. *)
Lemma hasProperty_own_fresh s pre post o q name sl :
  Pristine s -> proto o = Some q ->
  q = OBJECT_PROTO s \/ q = ARRAY_PROTO s ->
  aget name (properties o) = Some sl ->
  hasProperty (set_heap (heap s ++ pre ++ o :: post) s)
    (VObj (length (heap s) + length pre)) name = HOk true.
Proof.
  intros HP Hq Hqs Hown. unfold hasProperty.
  change (STRING (set_heap ?h s)) with (STRING s).
  rewrite (isa_fresh s _ (pre ++ o :: post) _ q); rewrite ?obj_at_mid;
    try done; [|lia|tauto|in_list].
  cbn [hbind andb]. rewrite andb_false_r.
  unfold chain_fuel. rewrite Nat.add_comm. cbn [Nat.add has_loop own_in].
  rewrite obj_at_mid. unfold ain. by rewrite Hown.
Qed.

Lemma getProperty_own_fresh s pre post o q name sl v w :
  Pristine s -> proto o = Some q ->
  q = OBJECT_PROTO s \/ q = ARRAY_PROTO s ->
  getter o = [] ->
  aget name (properties o) = Some sl -> kind sl = Data v w ->
  getProperty (VObj (length (heap s) + length pre)) name
    (set_heap (heap s ++ pre ++ o :: post) s) =
  Ok v (set_heap (heap s ++ pre ++ o :: post) s).
Proof.
  intros HP Hq Hqs Hg Hown Hkind. unfold getProperty, getProperty_.
  change (getterStep_ (set_heap ?h s)) with (getterStep_ s).
  rewrite (wf_getterStep s (pr_wf s HP)).
  rewrite getProperty_string_case_object.
  - unfold chain_fuel. rewrite Nat.add_comm. cbn [Nat.add get_loop own_in].
    rewrite obj_at_mid. unfold ain. rewrite Hown, Hg. cbn [aget default from_option truthy].
    unfold liftH, host_get. by rewrite obj_at_mid, Hown, Hkind.
  - change (STRING (set_heap ?h s)) with (STRING s).
    apply (isa_fresh s _ (pre ++ o :: post) _ q); rewrite ?obj_at_mid;
      try done; [lia|tauto|in_list].
Qed.

Lemma indexOf_fresh l cycles :
  Forall (fun c => (c < l)%nat) cycles -> indexOf l cycles = None.
Proof.
  induction 1 as [|c cycles Hc _ IH]; [done|]. cbn [indexOf].
  destruct (Nat.eqb_spec c l); [lia|]. by rewrite IH.
Qed.

End FreshAssign.

Section RoundTrip.
Context `{Host}.

(** Induction on host values, with the members of arrays and records. *)
Lemma hval_nested_ind (P : hval -> Prop) :
  (forall v, P (HVal v)) ->
  (forall es,
     Forall (fun e => match e with Some x => P x | None => True end) es ->
     P (HArray es)) ->
  (forall ps, Forall (fun kv => P (snd kv)) ps -> P (HObject ps)) ->
  (forall source flags lastIndex, P (HRegExp source flags lastIndex)) ->
  (forall time, P (HDate time)) ->
  (forall has_prototype, P (HFunction has_prototype)) ->
  (forall i, P (HBackRef i)) ->
  forall v, P v.
Proof.
  intros HV HA HO HR HD HF HB. fix IH 1. intros [v|es|ps|source flags lastIndex|time|b|i].
  - apply HV.
  - apply HA. induction es as [|[e|] es IHes]; constructor;
      [apply IH | exact IHes | exact I | exact IHes].
  - apply HO. induction ps as [|[key x] ps IHps]; constructor;
      [apply IH | exact IHps].
  - apply HR.
  - apply HD.
  - apply HF.
  - apply HB.
Qed.

Lemma nativeToPseudo_array_cons rec pseudoArray i e es :
  nativeToPseudo_array rec pseudoArray i (Some e :: es) =
  (v <- rec e ;;
   setProperty pseudoArray (String_of_N (N.of_nat i)) (SV v) None ;;
   nativeToPseudo_array rec pseudoArray (S i) es)%interp.
Proof. reflexivity. Qed.

Lemma nativeToPseudo_object_cons rec pseudoObj key x ps :
  nativeToPseudo_object rec pseudoObj ((key, x) :: ps) =
  (v <- rec x ;;
   setProperty pseudoObj key (SV v) None ;;
   nativeToPseudo_object rec pseudoObj ps)%interp.
Proof. reflexivity. Qed.

Lemma layout_elements_cons f n i e es :
  layout_elements f n i (Some e :: es) =
  ((String_of_N (N.of_nat i), plain_slot (fst (f n e))) ::
     fst (layout_elements f (n + length (snd (f n e))) (S i) es),
   snd (f n e) ++ snd (layout_elements f (n + length (snd (f n e))) (S i) es)).
Proof. reflexivity. Qed.

Lemma layout_properties_cons f n key x ps :
  layout_properties f n ((key, x) :: ps) =
  ((key, plain_slot (fst (f n x))) ::
     fst (layout_properties f (n + length (snd (f n x))) ps),
   snd (f n x) ++ snd (layout_properties f (n + length (snd (f n x))) ps)).
Proof. reflexivity. Qed.

Lemma layout_HArray s n es :
  layout s n (HArray es) =
  (VObj n,
   array_object (ARRAY_PROTO s) (Z.of_nat (length es))
     (fst (layout_elements (layout s) (S n) 0 es)) ::
   snd (layout_elements (layout s) (S n) 0 es)).
Proof. reflexivity. Qed.

Lemma layout_HObject s n ps :
  layout s n (HObject ps) =
  (VObj n,
   record_object (OBJECT_PROTO s) (fst (layout_properties (layout s) (S n) ps)) ::
   snd (layout_properties (layout s) (S n) ps)).
Proof. reflexivity. Qed.

Lemma nativeToPseudo_array_layout s es :
  Pristine s ->
  Forall (fun e => match e with Some x => converts s x | None => True end) es ->
  forallb (fun e => match e with Some x => json x | None => false end) es = true ->
  forall extra i elems objs,
    Z.of_nat (i + length es) < two32 ->
    (forall j, (i <= j)%nat -> aget (String_of_N (N.of_nat j)) elems = None) ->
    nativeToPseudo_array nativeToPseudo (VObj (length (heap s) + length extra)) i es
      (set_heap (heap s ++ extra ++
                   array_object (ARRAY_PROTO s) (Z.of_nat i) elems :: objs) s) =
    Ok tt
      (set_heap
         (heap s ++ extra ++
            array_object (ARRAY_PROTO s) (Z.of_nat (i + length es))
              (elems ++ fst (layout_elements (layout s)
                               (S (length (heap s) + length extra) + length objs) i es)) ::
            objs ++ snd (layout_elements (layout s)
                           (S (length (heap s) + length extra) + length objs) i es)) s).
Proof.
  intros HP IHes Hjson. induction es as [|[e|] es IH]; intros extra i elems objs Hlen Hfresh.
  - cbn. by rewrite !app_nil_r, Nat.add_0_r.
  - apply Forall_cons in IHes as [IHe IHes]. cbn [forallb] in Hjson.
    apply andb_true_iff in Hjson as [Hje Hjes]. specialize (IH IHes Hjes).
    cbn [length] in Hlen.
    rewrite nativeToPseudo_array_cons, layout_elements_cons. cbn [fst snd].
    specialize (IHe Hje (extra ++ array_object (ARRAY_PROTO s) (Z.of_nat i) elems :: objs)).
    replace (length (heap s) +
             length (extra ++ array_object (ARRAY_PROTO s) (Z.of_nat i) elems :: objs))%nat
      with (S (length (heap s) + length extra) + length objs)%nat in IHe
      by (rewrite length_app; cbn [length]; lia).
    set (r := layout s (S (length (heap s) + length extra) + length objs) e) in *.
    unfold bind at 1. rewrite <- app_assoc in IHe. cbn [app] in IHe. rewrite IHe.
    unfold bind at 1. rewrite setProperty_index_fresh; [|done|unfold two32 in Hlen; lia|by apply Hfresh].
    replace (Z.max (Z.of_nat i) (Z.of_nat i + 1)) with (Z.of_nat (S i)) by lia.
    rewrite IH.
    + rewrite length_app, <- !app_assoc. cbn [app].
      replace (S i + length es)%nat with (i + S (length es))%nat by lia.
      by rewrite Nat.add_assoc.
    + lia.
    + intros j Hj. rewrite aget_app, Hfresh by lia. cbn [aget].
      destruct (String.eqb _ _) eqn:E; [|done].
      apply String.eqb_eq, String_of_N_inj in E. lia.
  - done.
Qed.

Lemma nativeToPseudo_object_layout s ps :
  Pristine s ->
  Forall (fun kv => converts s (snd kv)) ps ->
  forallb (fun kv => json (snd kv)) ps = true ->
  forall extra props objs,
    NoDup (map fst props ++ map fst ps) ->
    nativeToPseudo_object nativeToPseudo (VObj (length (heap s) + length extra)) ps
      (set_heap (heap s ++ extra ++ record_object (OBJECT_PROTO s) props :: objs) s) =
    Ok tt
      (set_heap
         (heap s ++ extra ++
            record_object (OBJECT_PROTO s)
              (props ++ fst (layout_properties (layout s)
                               (S (length (heap s) + length extra) + length objs) ps)) ::
            objs ++ snd (layout_properties (layout s)
                           (S (length (heap s) + length extra) + length objs) ps)) s).
Proof.
  intros HP IHps Hjson. induction ps as [|[key x] ps IH]; intros extra props objs Hnd.
  - cbn. by rewrite !app_nil_r.
  - apply Forall_cons in IHps as [IHx IHps]. cbn [forallb snd] in Hjson, IHx.
    apply andb_true_iff in Hjson as [Hjx Hjps]. specialize (IH IHps Hjps).
    rewrite nativeToPseudo_object_cons, layout_properties_cons. cbn [fst snd].
    specialize (IHx Hjx (extra ++ record_object (OBJECT_PROTO s) props :: objs)).
    replace (length (heap s) +
             length (extra ++ record_object (OBJECT_PROTO s) props :: objs))%nat
      with (S (length (heap s) + length extra) + length objs)%nat in IHx
      by (rewrite length_app; cbn [length]; lia).
    set (r := layout s (S (length (heap s) + length extra) + length objs) x) in *.
    unfold bind at 1. rewrite <- app_assoc in IHx. cbn [app] in IHx. rewrite IHx.
    cbn [map fst] in Hnd.
    assert (Hkey : aget key props = None).
    { apply aget_None_iff. apply NoDup_app in Hnd as (_ & Hnd & _).
      intros Hin. apply (Hnd key Hin). left. }
    unfold bind at 1. rewrite setProperty_record_fresh by done.
    rewrite IH.
    + rewrite length_app, <- !app_assoc. cbn [app]. by rewrite Nat.add_assoc.
    + by rewrite map_app, <- app_assoc.
Qed.

Lemma nativeToPseudo_layout s v : Pristine s -> converts s v.
Proof.
  intros HP. induction v as [v|es IHes|ps IHps| | | |] using hval_nested_ind;
    intros Hjson extra; try done.
  - destruct v as [| | | | |l]; try done; cbn; by rewrite app_nil_r.
  - cbn [json] in Hjson. apply andb_true_iff in Hjson as [Hlen Hjson].
    apply Z.ltb_lt in Hlen.
    rewrite layout_HArray. cbn [nativeToPseudo fst snd].
    unfold bind at 1. rewrite createArray_fresh by done.
    unfold bind at 1.
    pose proof (nativeToPseudo_array_layout s es HP IHes Hjson extra 0 [] []) as Hloop.
    change (Z.of_nat 0) with 0 in Hloop. rewrite Hloop; [|done|done].
    cbn [length app]. by rewrite Nat.add_0_r.
  - cbn [json] in Hjson. apply andb_true_iff in Hjson as [Hnd Hjson].
    apply bool_decide_eq_true in Hnd.
    rewrite layout_HObject. cbn [nativeToPseudo fst snd].
    unfold bind at 1. unfold gets at 1. unfold bind at 1.
    change (OBJECT_PROTO (set_heap ?h s)) with (OBJECT_PROTO s).
    rewrite createObjectProto_fresh by auto.
    unfold bind at 1.
    change (new_InterpreterObject (Some (OBJECT_PROTO s)))
      with (record_object (OBJECT_PROTO s) []).
    rewrite (nativeToPseudo_object_layout s ps HP IHps Hjson extra [] []); [|done].
    cbn [length app]. by rewrite Nat.add_0_r.
Qed.

Lemma pseudoToNative_array_layout s es :
  Pristine s ->
  Forall (fun e => match e with Some x => reads_back s x | None => True end) es ->
  forallb (fun e => match e with Some x => json x | None => false end) es = true ->
  forall pre post cycles fuel i len elems objs acc x,
    x = pre ++ array_object (ARRAY_PROTO s) len
               (elems ++ fst (layout_elements (layout s)
                                (S (length (heap s) + length pre) + length objs) i es)) ::
          objs ++ snd (layout_elements (layout s)
                         (S (length (heap s) + length pre) + length objs) i es) ++ post ->
    (length (snd (layout_elements (layout s)
                    (S (length (heap s) + length pre) + length objs) i es)) < fuel)%nat ->
    Forall (fun c => (c < length (heap s) + length pre)%nat) cycles ->
    length acc = i ->
    (forall j, (i <= j)%nat -> aget (String_of_N (N.of_nat j)) elems = None) ->
    pseudoToNative_array
      (fun y => pseudoToNative_ fuel y (cycles ++ [(length (heap s) + length pre)%nat]))
      (length (heap s) + length pre) (length es) i acc (set_heap (heap s ++ x) s) =
    Ok (acc ++ es) (set_heap (heap s ++ x) s).
Proof.
  intros HP IHes Hjson.
  induction es as [|[e|] es IH];
    intros pre post cycles fuel i len elems objs acc x Hx Hfuel Hcycles Hacc Hfresh.
  - cbn. by rewrite app_nil_r.
  - apply Forall_cons in IHes as [IHe IHes]. cbn [forallb] in Hjson.
    apply andb_true_iff in Hjson as [Hje Hjes]. specialize (IH IHes Hjes).
    rewrite layout_elements_cons in Hx, Hfuel. cbn [fst snd] in Hx, Hfuel.
    set (n := (S (length (heap s) + length pre) + length objs)%nat) in *.
    set (r := layout s n e) in *.
    set (rs := layout_elements (layout s) (n + length (snd r)) (S i) es) in *.
    set (name := String_of_N (N.of_nat i)).
    assert (Hnl : String.eqb "length" name = false).
    { rewrite String.eqb_sym. apply String_of_N_not_length. }
    set (arr := array_object (ARRAY_PROTO s) len
                  (elems ++ (name, plain_slot (fst r)) :: fst rs)) in *.
    assert (Hown : aget name (properties arr) = Some (plain_slot (fst r))).
    { pose proof (Hfresh i (le_n _)) as Hfi. fold name in Hfi.
      cbn [arr array_object with_class with_properties properties aget].
      rewrite Hnl, aget_app, Hfi. cbn [aget]. by rewrite String.eqb_refl. }
    assert (Hhas : hasProperty (set_heap (heap s ++ x) s)
                     (VObj (length (heap s) + length pre)) name = HOk true).
    { rewrite Hx. apply (hasProperty_own_fresh s pre _ arr (ARRAY_PROTO s) name
                           (plain_slot (fst r)) HP); auto. }
    assert (Hget : getProperty (VObj (length (heap s) + length pre)) name
                     (set_heap (heap s ++ x) s) = Ok (fst r) (set_heap (heap s ++ x) s)).
    { rewrite Hx. apply (getProperty_own_fresh s pre _ arr (ARRAY_PROTO s) name
                           (plain_slot (fst r)) (fst r) true HP); auto. }
    assert (Hrec : pseudoToNative_ fuel (HVal (fst r))
                     (cycles ++ [(length (heap s) + length pre)%nat])
                     (set_heap (heap s ++ x) s) = Ok e (set_heap (heap s ++ x) s)).
    { assert (Hx2 : x = (pre ++ arr :: objs) ++ snd r ++ snd rs ++ post).
      { rewrite Hx, <- !app_assoc. done. }
      rewrite Hx2.
      specialize (IHe Hje (pre ++ arr :: objs) (snd rs ++ post)
                    (cycles ++ [(length (heap s) + length pre)%nat]) fuel).
      replace (length (heap s) + length (pre ++ arr :: objs))%nat with n in IHe
        by (unfold n; rewrite length_app; cbn [length]; lia).
      apply IHe.
      - fold r. rewrite length_app in Hfuel. lia.
      - apply Forall_app. split.
        + eapply Forall_impl; [exact Hcycles|]. intros c Hc. cbn in Hc. unfold n. lia.
        + constructor; [unfold n; lia | constructor]. }
    cbn [length pseudoToNative_array]. fold name.
    unfold bind at 1. unfold liftH at 1. rewrite Hhas.
    unfold bind at 1. rewrite Hget. unfold bind at 1. rewrite Hrec.
    unfold array_assign. rewrite Hacc, Nat.sub_diag. cbn [replicate app].
    rewrite (IH pre post cycles fuel (S i) len (elems ++ [(name, plain_slot (fst r))])
               (objs ++ snd r) (acc ++ [Some e]) x).
    + by rewrite <- app_assoc.
    + rewrite Hx. unfold arr. rewrite <- !app_assoc. cbn [app].
      rewrite length_app, Nat.add_assoc. reflexivity.
    + rewrite length_app, Nat.add_assoc. rewrite length_app in Hfuel. fold n. fold rs. lia.
    + done.
    + rewrite length_app. cbn [length]. lia.
    + intros j Hj. rewrite aget_app, Hfresh by lia. cbn [aget].
      destruct (String.eqb name _) eqn:E; [|done].
      apply String.eqb_eq, String_of_N_inj in E. lia.
  - done.
Qed.

Lemma enumerable_keys_layout f n ps :
  enumerable_keys (fst (layout_properties f n ps)) = map fst ps.
Proof.
  revert n. induction ps as [|[key x] ps IH]; intros n; [done|].
  rewrite layout_properties_cons. cbn [fst]. unfold enumerable_keys in *.
  cbn [List.filter snd plain_slot enumerable map fst]. by rewrite IH.
Qed.

Lemma pseudoToNative_object_layout s ps :
  Pristine s ->
  Forall (fun kv => reads_back s (snd kv)) ps ->
  forallb (fun kv => json (snd kv)) ps = true ->
  forall pre post cycles fuel props objs acc x,
    x = pre ++ record_object (OBJECT_PROTO s)
               (props ++ fst (layout_properties (layout s)
                                (S (length (heap s) + length pre) + length objs) ps)) ::
          objs ++ snd (layout_properties (layout s)
                         (S (length (heap s) + length pre) + length objs) ps) ++ post ->
    (length (snd (layout_properties (layout s)
                    (S (length (heap s) + length pre) + length objs) ps)) < fuel)%nat ->
    Forall (fun c => (c < length (heap s) + length pre)%nat) cycles ->
    NoDup (map fst props ++ map fst ps) ->
    map fst acc = map fst props ->
    pseudoToNative_object
      (fun y => pseudoToNative_ fuel y (cycles ++ [(length (heap s) + length pre)%nat]))
      (length (heap s) + length pre) (map fst ps) acc (set_heap (heap s ++ x) s) =
    Ok (acc ++ ps) (set_heap (heap s ++ x) s).
Proof.
  intros HP IHps Hjson.
  induction ps as [|[key e] ps IH];
    intros pre post cycles fuel props objs acc x Hx Hfuel Hcycles Hnd Hacc.
  - cbn. by rewrite app_nil_r.
  - apply Forall_cons in IHps as [IHe IHps]. cbn [forallb snd] in Hjson, IHe.
    apply andb_true_iff in Hjson as [Hje Hjes]. specialize (IH IHps Hjes).
    rewrite layout_properties_cons in Hx, Hfuel. cbn [fst snd] in Hx, Hfuel.
    set (n := (S (length (heap s) + length pre) + length objs)%nat) in *.
    set (r := layout s n e) in *.
    set (rs := layout_properties (layout s) (n + length (snd r)) ps) in *.
    set (o := record_object (OBJECT_PROTO s)
                (props ++ (key, plain_slot (fst r)) :: fst rs)) in *.
    cbn [map fst] in Hnd.
    assert (Hkey : aget key props = None).
    { apply aget_None_iff. apply NoDup_app in Hnd as (_ & Hnd & _).
      intros Hin. apply (Hnd key Hin). left. }
    assert (Hget : host_get (properties (obj_at (set_heap (heap s ++ x) s)
                                           (length (heap s) + length pre))) key =
                   HOk (fst r)).
    { rewrite Hx, obj_at_mid. unfold host_get.
      cbn [o record_object with_properties properties].
      rewrite aget_app, Hkey. cbn [aget]. by rewrite String.eqb_refl. }
    assert (Hrec : pseudoToNative_ fuel (HVal (fst r))
                     (cycles ++ [(length (heap s) + length pre)%nat])
                     (set_heap (heap s ++ x) s) = Ok e (set_heap (heap s ++ x) s)).
    { assert (Hx2 : x = (pre ++ o :: objs) ++ snd r ++ snd rs ++ post).
      { rewrite Hx, <- !app_assoc. done. }
      rewrite Hx2.
      specialize (IHe Hje (pre ++ o :: objs) (snd rs ++ post)
                    (cycles ++ [(length (heap s) + length pre)%nat]) fuel).
      replace (length (heap s) + length (pre ++ o :: objs))%nat with n in IHe
        by (unfold n; rewrite length_app; cbn [length]; lia).
      apply IHe.
      - fold r. rewrite length_app in Hfuel. lia.
      - apply Forall_app. split.
        + eapply Forall_impl; [exact Hcycles|]. intros c Hc. cbn in Hc. unfold n. lia.
        + constructor; [unfold n; lia | constructor]. }
    cbn [map fst pseudoToNative_object].
    unfold bind at 1. unfold liftH at 1. rewrite Hget.
    unfold bind at 1. rewrite Hrec.
    rewrite aput_fresh by (apply aget_None_iff; rewrite Hacc; by apply aget_None_iff).
    rewrite (IH pre post cycles fuel (props ++ [(key, plain_slot (fst r))])
               (objs ++ snd r) (acc ++ [(key, e)]) x).
    + by rewrite <- app_assoc.
    + rewrite Hx. unfold o. rewrite <- !app_assoc. cbn [app].
      rewrite length_app, Nat.add_assoc. reflexivity.
    + rewrite length_app, Nat.add_assoc. rewrite length_app in Hfuel. fold n. fold rs. lia.
    + done.
    + by rewrite map_app, <- app_assoc.
    + by rewrite !map_app, Hacc.
Qed.

Lemma pseudoToNative_layout s v : Pristine s -> reads_back s v.
Proof.
  intros HP. induction v as [v|es IHes|ps IHps| | | |] using hval_nested_ind;
    intros Hjson pre post cycles fuel Hfuel Hcycles; try done.
  - destruct v as [| | | | |l]; try done; by destruct fuel.
  - cbn [json] in Hjson. apply andb_true_iff in Hjson as [Hlen Hjson].
    rewrite layout_HArray in *. cbn [fst snd length app] in *.
    set (n := (length (heap s) + length pre)%nat) in *.
    set (rs := layout_elements (layout s) (S n) 0 es) in *.
    set (arr := array_object (ARRAY_PROTO s) (Z.of_nat (length es)) (fst rs)) in *.
    set (st := set_heap (heap s ++ pre ++ arr :: snd rs ++ post) s).
    destruct fuel as [|fuel]; [lia|]. cbn [pseudoToNative_].
    unfold bind at 1. unfold liftH at 1.
    change (REGEXP st) with (REGEXP s).
    unfold st at 1. rewrite (isa_fresh s _ (pre ++ arr :: snd rs ++ post) _ (ARRAY_PROTO s));
      rewrite ?obj_at_mid; try done; [|lia|tauto|in_list].
    unfold bind at 1. unfold liftH at 1.
    change (DATE st) with (DATE s).
    unfold st at 1. rewrite (isa_fresh s _ (pre ++ arr :: snd rs ++ post) _ (ARRAY_PROTO s));
      rewrite ?obj_at_mid; try done; [|lia|tauto|in_list].
    rewrite indexOf_fresh by done.
    unfold bind at 1. unfold liftH at 1.
    change (ARRAY st) with (ARRAY s).
    unfold st at 1.
    rewrite (isa_fresh_ARRAY s _ (pre ++ arr :: snd rs ++ post) _ (ARRAY_PROTO s));
      rewrite ?obj_at_mid; try done; [|lia|tauto].
    rewrite bool_decide_eq_true_2 by done.
    unfold bind at 1. unfold st at 1.
    rewrite (getProperty_own_fresh s pre _ arr (ARRAY_PROTO s) "length"
               {| kind := Data (VNum (NInt (Z.of_nat (length es)))) true;
                  enumerable := false; configurable := false |}
               (VNum (NInt (Z.of_nat (length es)))) true HP); auto.
    unfold bind at 1. unfold gets at 1. cbn [ToNumber loop_count].
    rewrite Nat2Z.id. unfold bind at 1. fold n.
    pose proof (pseudoToNative_array_layout s es HP IHes Hjson pre post cycles fuel
                  0 (Z.of_nat (length es)) [] [] []
                  (pre ++ arr :: snd rs ++ post)) as Hloop.
    cbn [length app] in Hloop. rewrite Nat.add_0_r in Hloop. fold n in Hloop.
    fold rs in Hloop. fold st in Hloop. fold st.
    rewrite Hloop; [done|done| |done|done|done].
    fold n rs in Hfuel. lia.
  - cbn [json] in Hjson. apply andb_true_iff in Hjson as [Hnd Hjson].
    apply bool_decide_eq_true in Hnd.
    rewrite layout_HObject in *. cbn [fst snd length app] in *.
    set (n := (length (heap s) + length pre)%nat) in *.
    set (rs := layout_properties (layout s) (S n) ps) in *.
    set (o := record_object (OBJECT_PROTO s) (fst rs)) in *.
    set (st := set_heap (heap s ++ pre ++ o :: snd rs ++ post) s).
    destruct fuel as [|fuel]; [lia|]. cbn [pseudoToNative_].
    unfold bind at 1. unfold liftH at 1.
    change (REGEXP st) with (REGEXP s).
    unfold st at 1. rewrite (isa_fresh s _ (pre ++ o :: snd rs ++ post) _ (OBJECT_PROTO s));
      rewrite ?obj_at_mid; try done; [|lia|tauto|in_list].
    unfold bind at 1. unfold liftH at 1.
    change (DATE st) with (DATE s).
    unfold st at 1. rewrite (isa_fresh s _ (pre ++ o :: snd rs ++ post) _ (OBJECT_PROTO s));
      rewrite ?obj_at_mid; try done; [|lia|tauto|in_list].
    rewrite indexOf_fresh by done.
    unfold bind at 1. unfold liftH at 1.
    change (ARRAY st) with (ARRAY s).
    unfold st at 1.
    rewrite (isa_fresh_ARRAY s _ (pre ++ o :: snd rs ++ post) _ (OBJECT_PROTO s));
      rewrite ?obj_at_mid; try done; [|lia|tauto].
    rewrite bool_decide_eq_false_2 by (apply Pristine_OP_ne_AP; done).
    unfold bind at 1. unfold gets at 1. unfold st at 1. rewrite obj_at_mid.
    cbn [o record_object with_properties properties].
    unfold rs at 1. rewrite enumerable_keys_layout. fold n.
    pose proof (pseudoToNative_object_layout s ps HP IHps Hjson pre post cycles fuel
                  [] [] [] (pre ++ o :: snd rs ++ post)) as Hloop.
    cbn [length app map] in Hloop. rewrite Nat.add_0_r in Hloop. fold n in Hloop.
    fold rs in Hloop. fold o in Hloop. fold st in Hloop. fold st. unfold bind at 1.
    rewrite Hloop; [done|done| |done|done|done].
    fold n rs in Hfuel. lia.
Qed.

(** C1.  In a pristine interpreter, converting a JSON value to interpreter
    objects and back returns the value: primitives pass through, arrays and
    records are rebuilt with the same indices and keys and members that are
    equal in turn.  A record lists its keys in [for-in] order, which the
    property maps of this model keep. *)
Theorem json_round_trip (s : Interp) (v : hval)
  (Hpristine : pristine s = true) (Hjson : json v = true) :
  exists pseudo s',
    nativeToPseudo v s = Ok pseudo s' /\
    pseudoToNative (HVal pseudo) s' = Ok v s'.
Proof.
  apply pristine_Pristine in Hpristine as HP.
  pose proof (nativeToPseudo_layout s v HP Hjson []) as Hto.
  rewrite app_nil_r, set_heap_id in Hto. cbn [length app] in Hto.
  rewrite Nat.add_0_r in Hto.
  eexists _, _. split; [exact Hto|].
  unfold pseudoToNative.
  pose proof (pseudoToNative_layout s v HP Hjson [] [] []
                (S (length (heap s ++ snd (layout s (length (heap s)) v))))) as Hback.
  cbn [length app] in Hback. rewrite Nat.add_0_r, app_nil_r in Hback.
  rewrite heap_set_heap. apply Hback; [|done].
  rewrite length_app. lia.
Qed.

End RoundTrip.

(** ** Adequacy of the closed recursion *)

Section KnotFacts.
Context `{Host}.

Lemma createObjectProto_inv p s error s1 :
  createObjectProto p s = Ok error s1 ->
  exists l, error = VObj l /\ (l < length (heap s1))%nat /\
            properties (obj_at s1 l) = [] /\
            class_is (obj_at s1 l) "Array" = false /\
            preventExtensions (obj_at s1 l) = false.
Proof.
  unfold createObjectProto.
  set (fresh := new_InterpreterObject _). set (s0 := set_heap (heap s ++ [fresh]) s).
  assert (Hl : (length (heap s) < length (heap s0))%nat).
  { unfold s0. rewrite heap_set_heap, length_app. cbn. lia. }
  destruct p; try done.
  all: destruct (isa s0 _ _) as [[|]| |]; try done; intros [= <- <-];
    exists (length (heap s)); (split; [done|]).
  all: rewrite ?length_heap_update_obj, ?obj_at_update_eq by done;
    unfold s0; rewrite obj_at_alloc_new; done.
Qed.

(** The calls that [throwException] makes on the error object that it has
    just created do not throw interpreted exceptions. *)
Lemma throwException_body_independent {A}
  (throwE1 throwE2 : forall A : Type, val -> val -> M A) errorClass opt_message s :
  throwException_body (A:=A) throwE1 errorClass opt_message s =
  throwException_body (A:=A) throwE2 errorClass opt_message s.
Proof.
  unfold throwException_body, bind.
  destruct (createObject errorClass s) as [error s1| | |] eqn:Hc; try done.
  assert (Hinv : exists l, error = VObj l /\ (l < length (heap s1))%nat /\
                           properties (obj_at s1 l) = [] /\
                           class_is (obj_at s1 l) "Array" = false /\
                           preventExtensions (obj_at s1 l) = false).
  { unfold createObject in Hc. destruct errorClass as [| | | | |c].
    1-5: try (destruct (truthy _); [done|]); by apply createObjectProto_inv in Hc.
    destruct (host_get _ _); try done. by apply createObjectProto_inv in Hc. }
  destruct Hinv as (l & -> & Hl & Hprops & Hcls & Hpe).
  assert (Hset : setProperty_ throwE1 (VObj l) "message" (SV opt_message)
                   (Some NONENUMERABLE_DESCRIPTOR) s1 =
                 setProperty_ throwE2 (VObj l) "message" (SV opt_message)
                   (Some NONENUMERABLE_DESCRIPTOR) s1).
  { unfold setProperty_, NONENUMERABLE_DESCRIPTOR, flags_descriptor.
    destruct (setterStep_ s1); [done|].
    cbn [invalid_descriptor d_get d_set d_value d_writable present orb andb].
    unfold current_strict, setProperty_object_, bind, liftH, gets, ret, modify.
    destruct (getScope s1); try done.
    destruct (isa s1 (VObj l) (STRING s1)) as [b| |]; try done.
    assert (Hrange : string_index_in_range s1 (VObj l) "message" = false).
    { unfold string_index_in_range. by rewrite legalArrayIndex_non_digits. }
    rewrite Hrange. cbn [String.eqb Ascii.eqb Bool.eqb orb]. rewrite andb_false_r.
    rewrite Hcls, Hpe. cbn [andb].
    unfold setProperty_define_, bind, modify, gets, ret.
    cbn [d_get d_set d_value d_writable d_configurable d_enumerable desc_truthy present].
    rewrite obj_at_update_eq by done. cbn [with_setter with_getter properties].
    rewrite Hprops. done. }
  rewrite Hset.
  by destruct (setProperty_ throwE2 _ _ _ _ s1) as [r s2| | |].
Qed.

(** [throwException] runs its body with itself for the nested calls. *)
Lemma throwException_unfold {A} errorClass opt_message s :
  throwException (A:=A) errorClass opt_message s =
  throwException_body (@throwException _) errorClass opt_message s.
Proof. apply throwException_body_independent. Qed.

End KnotFacts.
(** * Part III: concrete runs on the small interpreter *)

Import Demo.

(** Reading [foo] from [null], from [undefined] and from the global object,
    which does not have it. *)
Lemma getProperty_nullish_and_missing_witness :
  wf_interp demo = true /\
  raises (TYPE_ERROR demo) "Cannot read property 'foo' of null" demo
    (getProperty VNull "foo" demo) /\
  raises (TYPE_ERROR demo) "Cannot read property 'foo' of undefined" demo
    (getProperty VUndef "foo" demo) /\
  getProperty (VObj 0%nat) "foo" demo = Ok VUndef demo.
Proof.
  split; [reflexivity|].
  apply (getProperty_nullish_and_missing demo "foo" 0%nat).
  - reflexivity.
  - cbn. lia.
  - repeat (constructor; cbn).
  - reflexivity.
Defined.

(** No scope of the small interpreter binds [y]. *)
Lemma demo_y_unbound st : unbound (demo_with [st]) "y" 1%nat.
Proof.
  eapply unbound_local; [done | reflexivity | reflexivity |].
  apply unbound_global; reflexivity.
Qed.


(** [y = 5] inside a non-strict function creates [y] on the global object. *)
Lemma setValueToScope_unbound_witness :
  wf_interp (demo_with [statement_frame]) = true /\
  scopes_ok (demo_with [statement_frame]) = true /\
  setValueToScope "y" (VNum (NInt 5)) (demo_with [statement_frame]) =
  Ok VUndef
    (put_obj 0%nat
       (with_properties [("self", plain_slot (VObj 0%nat));
                         ("y", plain_slot (VNum (NInt 5)))]
          (obj_at (demo_with [statement_frame]) 0%nat))
       (demo_with [statement_frame])).
Proof.
  split; [reflexivity|]. split; [reflexivity|].
  apply (setValueToScope_unbound (demo_with [statement_frame]) statement_frame [] 1%nat
           "y" (VNum (NInt 5))); try reflexivity.
  - apply demo_y_unbound.
  - cbn. lia.
Defined.

(** C2.  [function F() { return null; } new F()]: when the body of [F] has
    completed with [null], the frame of the caller receives [null], not the
    allocated object; with [undefined] it receives the allocated object. *)
Theorem constructor_returning_null :
  stepCallExpression (demo_with [completed_new VNull; statement_frame]) =
  Ok None (demo_with [with_value (FV VNull) statement_frame]) /\
  stepCallExpression (demo_with [completed_new VUndef; statement_frame]) =
  Ok None (demo_with [with_value (FV (VObj 28%nat)) statement_frame]).
Proof. split; reflexivity. Qed.

(** C3.  [nativeToPseudo(r)] for [r = /a/g] with [r.lastIndex = 1]: the
    object is allocated, then [pseudoRegexp.data = ...] throws the host
    [TypeError]; no property is stored, and converting the allocated object
    back throws as well. *)
Theorem regexp_round_trip_throws :
  nativeToPseudo (HRegExp "a" "g" (NInt 1)) demo =
  HostError (Thrown "TypeError"
               (VStr "Cannot set property data of #<InterpreterObject> which has only a getter"))
    (set_heap (demo_heap ++ [new_InterpreterObject (Some 16%nat)]) demo) /\
  pseudoToNative (HVal (VObj 31%nat))
    (set_heap (demo_heap ++ [new_InterpreterObject (Some 16%nat)]) demo) =
  HostError (Thrown "TypeError"
               (VStr "Cannot read properties of null (reading 'source')"))
    (set_heap (demo_heap ++ [new_InterpreterObject (Some 16%nat)]) demo).
Proof. split; reflexivity. Qed.




(** C4.  [a.length = 0] on the array at 29, whose index 3 is not enumerable:
    the enumerable index 0 is deleted, index 3 is not, and the length
    becomes 0; [a[3]] still reads 1 afterwards. *)
Theorem array_truncation_skips_hidden_index :
  setProperty (VObj 29%nat) "length" (SV (VNum (NInt 0))) None
    (demo_with [statement_frame]) =
  Ok VUndef (put_obj 29%nat truncated_array (demo_with [statement_frame])) /\
  getProperty (VObj 29%nat) "3"
    (put_obj 29%nat truncated_array (demo_with [statement_frame])) =
  Ok (VNum (NInt 1)) (put_obj 29%nat truncated_array (demo_with [statement_frame])).
Proof. split; reflexivity. Qed.

(** The round trip of [[1, {paid: null, items: ["x"]}, []]]. *)
Lemma json_round_trip_witness :
  pristine demo = true /\ json invoice = true /\
  exists pseudo s',
    nativeToPseudo invoice demo = Ok pseudo s' /\
    pseudoToNative (HVal pseudo) s' = Ok invoice s'.
Proof.
  split; [reflexivity|]. split; [reflexivity|].
  apply (json_round_trip demo invoice); reflexivity.
Defined.
